(** * The rule engine of liferay-npm-bundler ([steps/rules.js])

    A shallow embedding of the loader pipeline ([runLoaders]), the per-file
    operation ([processFile]), the result writer ([writeLoadersResult],
    [writeRuleFile], [stripSourceDir]) and the package orchestrator
    ([processPackage], [runRules]).

    Conventions of the embedding:
    - a JavaScript call either throws synchronously or returns a promise,
      which settles as fulfilled or rejected: type [Completion];
    - the per-file context object is mutable and shared between the engine
      and the loaders: a loader's [exec] takes the context and gives back
      the context as it left it, together with what it returned; loaders
      act on the outside only through the context;
    - the file system and the logging and reporting sinks are threaded as an
      explicit [World], whose [journal] records every effect in order;
      writes to the file system are taken to succeed;
    - deferred results are taken at the value they settle to, so the
      callbacks of one file run to completion before the next file starts;
      what stays of the interleaving inside a chunk is the runner's own
      record of the operations it starts and sees settle;
    - Node's [path] functions, the [project] singleton, the configuration
      and the helpers [findFiles], [getDestDir] and [gl.prefix] are
      parameters; [runInChunks], whose source is not at hand, is modelled
      from the specification. *)

From Stdlib Require Import String Ascii.
From Equations Require Import Equations.
From stdpp Require Import base list strings gmap pretty.

Local Open Scope nat_scope.

(** ** JavaScript values, errors and completions *)

(** The values a loader can hand back as content. *)
Inductive value : Type :=
  | VUndefined
  | VNull
  | VStr (s : string).

Global Instance value_eq_dec : EqDecision value.
Proof. solve_decision. Defined.

(** [v !== undefined] *)
Definition strict_ne_undefined (v : value) : bool :=
  match v with
  | VUndefined => false
  | _ => true
  end.

(** [v == undefined] (loose equality: null and undefined are both equal to
    undefined) *)
Definition loose_eq_undefined (v : value) : bool :=
  match v with
  | VUndefined | VNull => true
  | VStr _ => false
  end.

(** [v != undefined] *)
Definition loose_ne_undefined (v : value) : bool :=
  negb (loose_eq_undefined v).

(** An [Error] object; only its [message] is observed. *)
Record JsError : Type := mkError { message : string }.

Global Instance JsError_eq_dec : EqDecision JsError.
Proof. solve_decision. Defined.

(** How a promise settles. *)
Inductive Settled (A : Type) : Type :=
  | Fulfilled (a : A)
  | Rejected (e : JsError).
Arguments Fulfilled {A} a.
Arguments Rejected {A} e.

(** How a call completes: it throws, or it returns a promise. *)
Inductive Completion (A : Type) : Type :=
  | SyncThrow (e : JsError)
  | Promise (p : Settled A).
Arguments SyncThrow {A} e.
Arguments Promise {A} p.

(** A completion that is neither a throw nor a rejection. *)
Definition succeeded {A} (c : Completion A) : bool :=
  match c with
  | Promise (Fulfilled _) => true
  | _ => false
  end.

(** The error a failed completion carries. *)
Definition failure_of {A} (c : Completion A) : option JsError :=
  match c with
  | SyncThrow e => Some e
  | Promise (Rejected e) => Some e
  | Promise (Fulfilled _) => None
  end.

(** [p.then(() => k)] for a continuation [k] that was run on fulfilment and
    completed as [c]: a throw inside the callback rejects the promise. *)
Definition then_adopt {A} (c : Completion A) : Completion A :=
  match c with
  | SyncThrow e => Promise (Rejected e)
  | Promise p => Promise p
  end.

(** ** Strings as the code uses them *)

(** [s.startsWith(p)] *)
Definition startsWith (s p : string) : bool := String.prefix p s.

(** [s.substring(n)] *)
Fixpoint substring_from (n : nat) (s : string) : string :=
  match n, s with
  | 0, _ => s
  | S n', String _ s' => substring_from n' s'
  | S _, EmptyString => EmptyString
  end.

(** ** The per-file context and the loaders *)

Inductive LogLevel : Type := LInfo | LWarn | LError.

(** One entry of a [PluginLogger]. *)
Record LogEntry : Type := mkLogEntry {
  level : LogLevel;
  source : string;
  text : string
}.

(** [logger.info(source, text)] *)
Definition log_info (src msg : string) (l : list LogEntry) : list LogEntry :=
  l ++ [mkLogEntry LInfo src msg].

(** The context object handed to every loader of a file. [extraArtifacts] is
    an object used as a map; [Object.entries] lists it in this order. *)
Record FileContext : Type := mkContext {
  content : value;
  filePath : string;
  extraArtifacts : list (string * value);
  log : list LogEntry
}.

(** [Object.assign(context, {content})] *)
Definition assign_content (c : FileContext) (v : value) : FileContext :=
  {| content := v;
     filePath := filePath c;
     extraArtifacts := extraArtifacts c;
     log := log c |}.

(** What [loader.exec(context, options)] hands back when it returns: a
    plain value, or a promise. *)
Inductive Returned : Type :=
  | Plain (v : value)
  | Deferred (p : Settled value).

(** What [loader.exec(context, options)] does, besides changing the
    context: it returns, or it throws. *)
Inductive ExecResult : Type :=
  | Return (r : Returned)
  | Throw (e : JsError).

(** [Promise.resolve(result)] *)
Definition Promise_resolve (r : Returned) : Settled value :=
  match r with
  | Plain v => Fulfilled v
  | Deferred p => p
  end.

(** A loader descriptor. [options] is an opaque payload. *)
Record Loader : Type := mkLoader {
  use : string;
  exec : FileContext → string → FileContext * ExecResult;
  options : string
}.

(** The message set by the [catch] block of [runLoaders]. *)
Definition annotate (u : string) (e : JsError) : JsError :=
  mkError ("Loader '" +:+ u +:+ "' failed: " +:+ message e).

(** Reading a property of [undefined]. *)
Definition type_error : JsError :=
  mkError "Cannot read property 'use' of undefined".

(** The state of one pipeline run: the shared context, and the record of
    the loader calls made so far (index of the loader and the context it
    was handed). *)
Record PipelineState : Type := mkPipeline {
  context : FileContext;
  invoked : list (nat * FileContext)
}.

Definition pipeline_start (c : FileContext) : PipelineState :=
  mkPipeline c [].

(** The callback of [then] in [runLoaders], up to the recursive call: the
    context it goes on with. *)
Definition take_content (c : FileContext) (v : value) : FileContext :=
  if strict_ne_undefined v then assign_content c v else c.

(** [runLoaders(loaders, firstLoaderIndex, context)]. The index grows by one
    at every call and the recursion stops at [loaders.length]. *)
Equations? runLoaders (loaders : list Loader) (firstLoaderIndex : nat)
    (st : PipelineState) : PipelineState * Completion value
    by wf (length loaders - firstLoaderIndex) lt :=
  runLoaders loaders firstLoaderIndex st
    with decide (length loaders ≤ firstLoaderIndex) := {
    | left _ => (st, Promise (Fulfilled (content (context st))))
    | right _ with loaders !! firstLoaderIndex := {
      | None => (st, SyncThrow type_error)
      | Some loader
          with exec loader (context st) (options loader) := {
        | (c1, Throw e) =>
            (mkPipeline c1 (invoked st ++ [(firstLoaderIndex, context st)]),
             SyncThrow (annotate (use loader) e))
        | (c1, Return r) with Promise_resolve r := {
          | Rejected e =>
              (mkPipeline c1 (invoked st ++ [(firstLoaderIndex, context st)]),
               Promise (Rejected e))
          | Fulfilled v =>
              let '(st', k) :=
                runLoaders loaders (firstLoaderIndex + 1)
                  (mkPipeline (take_content c1 v)
                     (invoked st ++ [(firstLoaderIndex, context st)])) in
              (st', then_adopt k) } } } }.
Proof. lia. Qed.

(** The same run, read off the list of the loaders still to call: [i] is
    the index of the first of them. *)
Fixpoint run_chain (rest : list Loader) (i : nat) (st : PipelineState)
    : PipelineState * Completion value :=
  match rest with
  | [] => (st, Promise (Fulfilled (content (context st))))
  | loader :: rest' =>
    let calls := invoked st ++ [(i, context st)] in
    match exec loader (context st) (options loader) with
    | (c1, Throw e) =>
        (mkPipeline c1 calls, SyncThrow (annotate (use loader) e))
    | (c1, Return r) =>
      match Promise_resolve r with
      | Rejected e => (mkPipeline c1 calls, Promise (Rejected e))
      | Fulfilled v =>
        let '(st', k) :=
          run_chain rest' (S i) (mkPipeline (take_content c1 v) calls) in
        (st', then_adopt k)
      end
    end
  end.

(** The transform of one loader as the specification words it: the loader
    runs on the context; a returned value other than "no value" replaces
    [content], "no value" leaves [content] as it is. *)
Definition returned_value (r : ExecResult) : option value :=
  match r with
  | Return (Plain v) | Return (Deferred (Fulfilled v)) => Some v
  | Return (Deferred (Rejected _)) | Throw _ => None
  end.

Definition apply_loader (c : FileContext) (l : Loader) : FileContext :=
  let '(c1, r) := exec l c (options l) in
  match returned_value r with
  | Some VUndefined | None => c1
  | Some v => assign_content c1 v
  end.

(** Every loader of the chain hands back a value (possibly "no value") on
    the context it receives. *)
Fixpoint all_return (loaders : list Loader) (c : FileContext) : bool :=
  match loaders with
  | [] => true
  | l :: ls =>
    match returned_value (exec l c (options l)).2 with
    | Some _ => all_return ls (apply_loader c l)
    | None => false
    end
  end.

(** A loader that returns "no value" and leaves [content] as it found it,
    whatever the context. *)
Definition silent (l : Loader) : Prop :=
  ∀ c, returned_value (exec l c (options l)).2 = Some VUndefined
       ∧ content (exec l c (options l)).1 = content c.

(** The fields of the context other than [content]. *)
Definition frame (c : FileContext)
    : string * list (string * value) * list LogEntry :=
  (filePath c, extraArtifacts c, log c).

(** What a loader leaves of the frame of the context it is handed. *)
Definition frame_left (l : Loader) (c : FileContext) :=
  frame (exec l c (options l)).1.

(** The error a failing loader makes the pipeline surface. *)
Definition surfaced_error (l : Loader) (r : ExecResult) : option JsError :=
  match r with
  | Throw e => Some (annotate (use l) e)
  | Return (Deferred (Rejected e)) => Some e
  | Return _ => None
  end.

(** The contexts handed to the loaders of a chain, with their indices
    counted from [i]. *)
Fixpoint handed_contexts (loaders : list Loader) (i : nat) (c : FileContext)
    : list (nat * FileContext) :=
  match loaders with
  | [] => []
  | l :: ls => (i, c) :: handed_contexts ls (S i) (apply_loader c l)
  end.

(** ** Packages, the project and the outside world *)

Record PkgDesc : Type := mkPkg {
  id : string;
  dir : string;
  isRoot : bool;
  clean : bool
}.

(** [pkg.clone({dir})] *)
Definition clone (pkg : PkgDesc) (d : string) : PkgDesc :=
  {| id := id pkg; dir := d; isRoot := isRoot pkg; clean := clean pkg |}.

(** Node's [path] module, taken as given. *)
Record NodePath : Type := mkNodePath {
  path_join : list string → string;
  path_relative : string → string → string;
  path_dirname : string → string;
  path_sep : string
}.

(** The [project] singleton of the toolkit, the bundler configuration and
    the helpers imported from [./util] and the globs module, taken as
    given. *)
Record Project : Type := mkProject {
  project_dir : string;
  project_sources : list string;
  project_sources_asPlatform : list string;
  loadersForFile : string → list Loader;
  findFiles : string → list string → list string;
  gl_prefix : string → list string → list string;
  getDestDir : PkgDesc → string;
  getMaxParallelFiles : nat
}.

(** Everything the step does to the outside, in order. *)
Inductive Effect : Type :=
  | EnsureDir (d : string)
  | WriteFile (f : string) (data : string)
  | LogDebug (msg : string)
  | RulesRun (f : string) (l : list LogEntry).

Global Instance LogLevel_eq_dec : EqDecision LogLevel.
Proof. solve_decision. Defined.
Global Instance LogEntry_eq_dec : EqDecision LogEntry.
Proof. solve_decision. Defined.
Global Instance Effect_eq_dec : EqDecision Effect.
Proof. solve_decision. Defined.

(** The lines logged with [log.debug], in order. *)
Definition debug_lines (evs : list Effect) : list string :=
  omap (λ e, match e with LogDebug msg => Some msg | _ => None end) evs.

(** The file system (file path to text) and the journal of effects. *)
Record World : Type := mkWorld {
  files : gmap string string;
  journal : list Effect
}.

Definition emit (e : Effect) (w : World) : World :=
  mkWorld (files w) (journal w ++ [e]).

(** [fs.writeFileSync(f, data)] *)
Definition writeFileSync (f data : string) (w : World) : World :=
  mkWorld (<[f := data]> (files w)) (journal w ++ [WriteFile f data]).

(** The error of [fs.readFileSync] on a missing file. *)
Definition enoent (f : string) : JsError :=
  mkError ("ENOENT: no such file or directory, open '" +:+ f +:+ "'").

(** [v != undefined], together with the text that is then written. *)
Definition defined_content (v : value) : option string :=
  match v with
  | VStr s => Some s
  | VUndefined | VNull => None
  end.

(** The fixed source tag of the diagnostics of [writeLoadersResult]. *)
Definition bundler_tag : string := "liferay-npm-bundler".

Section Rules.
Variable path : NodePath.
Variable project : Project.

(** [stripSourceDir(pkgFile)]: the loop over [project.sources.asPlatform],
    here over the list [sources]. *)
Fixpoint stripSourceDir_loop (sources : list string) (pkgFile : string)
    : string :=
  match sources with
  | [] => pkgFile
  | source :: rest =>
    let prefix := source +:+ path_sep path in
    if startsWith pkgFile prefix then
      substring_from (String.length prefix) pkgFile
    else stripSourceDir_loop rest pkgFile
  end.

Definition stripSourceDir (pkgFile : string) : string :=
  stripSourceDir_loop (project_sources_asPlatform project) pkgFile.

(** The path [writeRuleFile] writes at. *)
Definition rule_file_path (destPkg : PkgDesc) (pkgFile : string) : string :=
  let pkgFile' := if isRoot destPkg then stripSourceDir pkgFile else pkgFile in
  path_join path [project_dir project; dir destPkg; pkgFile'].

(** [writeRuleFile(destPkg, pkgFile, content)] *)
Definition writeRuleFile (destPkg : PkgDesc) (pkgFile data : string)
    (w : World) : World :=
  let absFile := rule_file_path destPkg pkgFile in
  writeFileSync absFile data (emit (EnsureDir (path_dirname path absFile)) w).

(** [path.relative(srcPkg.dir, path.join(project.dir, prjFile))] *)
Definition pkg_relative (srcPkg : PkgDesc) (prjFile : string) : string :=
  path_relative path (dir srcPkg) (path_join path [project_dir project; prjFile]).

(** The body of the [forEach] of [writeLoadersResult], on one entry. *)
Definition write_extra (srcPkg destPkg : PkgDesc)
    (acc : World * list LogEntry) (entry : string * value)
    : World * list LogEntry :=
  let '(prjExtraFile, v) := entry in
  match defined_content v with
  | None => acc
  | Some data =>
    (writeRuleFile destPkg (pkg_relative srcPkg prjExtraFile) data acc.1,
     log_info bundler_tag
       ("Rules generated extra artifact: " +:+ prjExtraFile) acc.2)
  end.

(** [writeLoadersResult(srcPkg, destPkg, context)]; the context comes back
    with its log as the function left it. *)
Definition writeLoadersResult (srcPkg destPkg : PkgDesc) (c : FileContext)
    (w : World) : World * FileContext :=
  let w1 :=
    match defined_content (content c) with
    | Some data => writeRuleFile destPkg (pkg_relative srcPkg (filePath c)) data w
    | None => w
    end in
  let '(w2, lg) :=
    fold_left (write_extra srcPkg destPkg) (extraArtifacts c) (w1, log c) in
  (w2, mkContext (content c) (filePath c) (extraArtifacts c) lg).

(** What one call of [writeRuleFile] adds to the journal. *)
Definition write_events (destPkg : PkgDesc) (pkgFile data : string)
    : list Effect :=
  let absFile := rule_file_path destPkg pkgFile in
  [EnsureDir (path_dirname path absFile); WriteFile absFile data].

(** The writes and the diagnostics one entry of [extraArtifacts] stands
    for, in the words of the specification: an entry with defined content
    is written at its own path, taken relative to the source package, and
    gets one informational diagnostic; another entry gets neither. *)
Definition extra_writes (srcPkg destPkg : PkgDesc) (entry : string * value)
    : list Effect :=
  match defined_content entry.2 with
  | Some data => write_events destPkg (pkg_relative srcPkg entry.1) data
  | None => []
  end.

Definition extra_diagnostics (entry : string * value) : list LogEntry :=
  match defined_content entry.2 with
  | Some _ =>
    [mkLogEntry LInfo bundler_tag
       ("Rules generated extra artifact: " +:+ entry.1)]
  | None => []
  end.

(** [processFile(srcPkg, destPkg, prjSrcFile)] *)
Definition processFile (srcPkg destPkg : PkgDesc) (prjSrcFile : string)
    (w : World) : World * Completion unit :=
  let absFile := path_join path [project_dir project; prjSrcFile] in
  let loaders := loadersForFile project absFile in
  if length loaders =? 0 then (w, Promise (Fulfilled tt))
  else
    match files w !! absFile with
    | None => (w, SyncThrow (enoent absFile))
    | Some data =>
      let c := mkContext (VStr data) prjSrcFile [] [] in
      let '(st, k) := runLoaders loaders 0 (pipeline_start c) in
      match k with
      | SyncThrow e => (w, SyncThrow e)
      | Promise (Rejected e) => (w, Promise (Rejected e))
      | Promise (Fulfilled _) =>
        let '(w1, c1) := writeLoadersResult srcPkg destPkg (context st) w in
        (emit (RulesRun prjSrcFile (log c1)) w1, Promise (Fulfilled tt))
      end
    end.

End Rules.

(** ** The bounded parallel runner *)

(** What the runner does with an item: it starts the operation on it, and
    later sees the operation settle, with an error when it failed. *)
Inductive SchedEvent (Item : Type) : Type :=
  | Dispatch (x : Item)
  | Settle (x : Item) (failure : option JsError).
Arguments Dispatch {Item} x.
Arguments Settle {Item} x failure.

(** The number of operations started and not yet settled after a run of
    events. *)
Fixpoint in_flight {Item} (evs : list (SchedEvent Item)) (n : nat) : nat :=
  match evs with
  | [] => n
  | Dispatch _ :: rest => in_flight rest (S n)
  | Settle _ _ :: rest => in_flight rest (pred n)
  end.

(** The items started, in the order of their start. *)
Fixpoint dispatched {Item} (evs : list (SchedEvent Item)) : list Item :=
  match evs with
  | [] => []
  | Dispatch x :: rest => x :: dispatched rest
  | Settle _ _ :: rest => dispatched rest
  end.

(** The failures seen, in the order in which they were seen. *)
Fixpoint failures {Item} (evs : list (SchedEvent Item)) : list JsError :=
  match evs with
  | [] => []
  | Settle _ (Some e) :: rest => e :: failures rest
  | _ :: rest => failures rest
  end.

(** One wave of the runner: a group of items started together, and the same
    group settling, in some order. *)
Definition wave_events {Item} (group : list Item)
    (settled : list (Item * option JsError)) : list (SchedEvent Item) :=
  map Dispatch group ++ map (λ o, Settle o.1 o.2) settled.

Section Runner.
Context {Item St : Type}.

(** The order in which the operations of a chunk settle is not fixed by
    the runner; it is a parameter. *)
Variable completion_order :
  list (Item * option JsError) → list (Item * option JsError).

(** The per-item operation, on the state the operations share. *)
Variable op : Item → St → St * Completion unit.

Record RunnerState : Type := mkRunner {
  store : St;
  sched : list (SchedEvent Item);
  surfaced : option JsError
}.

(** Starting the operations of one chunk, in order. *)
Fixpoint dispatch_chunk (chunk : list Item) (s : St)
    : St * list (Item * option JsError) :=
  match chunk with
  | [] => (s, [])
  | x :: rest =>
    let '(s1, k) := op x s in
    let '(s2, outs) := dispatch_chunk rest s1 in
    (s2, (x, failure_of k) :: outs)
  end.

Definition first_failure (outs : list (Item * option JsError))
    : option JsError :=
  head (omap snd outs).

(** Modelled from the spec: [runInChunks] of [steps/util], which is not
    among the sources. Following section 4.4: the files are taken in
    consecutive groups of at most [N] from a cursor into the list; the
    operations of a group are started together; the group settles as a
    whole before the cursor moves on; a failure does not stop the later
    groups from being attempted, and the first failure seen is the one
    the overall result carries. *)
Fixpoint runInChunks_fuel (fuel : nat) (items : list Item) (N offset : nat)
    (rs : RunnerState) : option RunnerState :=
  match fuel with
  | 0 => None
  | S fuel' =>
    if length items <=? offset then Some rs
    else
      let chunk := take N (drop offset items) in
      let '(s1, outs) := dispatch_chunk chunk (store rs) in
      let settled := completion_order outs in
      runInChunks_fuel fuel' items N (offset + N)
        (mkRunner s1
           (sched rs ++ wave_events chunk settled)
           (match surfaced rs with
            | Some e => Some e
            | None => first_failure settled
            end))
  end.

Definition runInChunks (items : list Item) (N offset : nat) (s : St)
    : option RunnerState :=
  runInChunks_fuel (S (length items)) items N offset (mkRunner s [] None).

(** The promise the runner returns. *)
Definition runner_result (rs : RunnerState) : Completion unit :=
  match surfaced rs with
  | Some e => Promise (Rejected e)
  | None => Promise (Fulfilled tt)
  end.

End Runner.

Arguments RunnerState : clear implicits.
Arguments mkRunner {Item St} store sched surfaced.

(** ** The package orchestrator *)

(** What the processing of one package leaves behind: the package, the
    files found for it, the runner's events and the promise it returned. *)
Record PackageRun : Type := mkPackageRun {
  run_pkg : PkgDesc;
  run_files : list string;
  run_events : list (SchedEvent string);
  run_result : Completion unit
}.

Section Orchestrator.
Variable path : NodePath.
Variable project : Project.
Variable completion_order :
  list (string * option JsError) → list (string * option JsError).

(** The files [processPackage] hands to the runner. *)
Definition package_files (srcPkg : PkgDesc) : list string :=
  let sourceGlobs :=
    if isRoot srcPkg then map (λ s, s +:+ "/**/*") (project_sources project)
    else ["**/*"] in
  let globs := sourceGlobs ++ ["!node_modules/**/*"] in
  findFiles project (project_dir project)
    (gl_prefix project
       (project_dir project +:+ "/" +:+ dir srcPkg +:+ "/") globs).

(** The line [processPackage] logs first. *)
Definition applying (srcPkg : PkgDesc) : string :=
  "Applying rules to package '" +:+ id srcPkg +:+ "'...".

(** [processPackage(srcPkg)] *)
Definition processPackage (srcPkg : PkgDesc) (w : World)
    : option (World * PackageRun) :=
  let w0 := emit (LogDebug (applying srcPkg)) w in
  let prjSrcFiles := package_files srcPkg in
  let destPkg := clone srcPkg (getDestDir project srcPkg) in
  rs ← runInChunks completion_order
         (processFile path project srcPkg destPkg)
         prjSrcFiles (getMaxParallelFiles project) 0 w0;
  Some (store rs,
        mkPackageRun srcPkg prjSrcFiles (sched rs) (runner_result rs)).

(** [dirtyPkgs.map(srcPkg => processPackage(srcPkg))] *)
Fixpoint process_all (pkgs : list PkgDesc) (w : World)
    : option (World * list PackageRun) :=
  match pkgs with
  | [] => Some (w, [])
  | p :: rest =>
    '(w1, r) ← processPackage p w;
    '(w2, rs) ← process_all rest w1;
    Some (w2, r :: rs)
  end.

Definition dirty (rootPkg : PkgDesc) (depPkgs : list PkgDesc) : list PkgDesc :=
  List.filter (λ srcPkg, negb (clean srcPkg)) (rootPkg :: depPkgs).

(** The line [runRules] logs when every package succeeded. *)
Definition summary (n : nat) : string :=
  "Applied rules to " +:+ pretty n +:+ " packages".

(** [runRules(rootPkg, depPkgs)]: [Promise.all] over the dirty packages,
    then the summary. *)
Definition runRules (rootPkg : PkgDesc) (depPkgs : list PkgDesc) (w : World)
    : option (World * list PackageRun * Completion unit) :=
  let dirtyPkgs := dirty rootPkg depPkgs in
  '(w1, runs) ← process_all dirtyPkgs w;
  match head (omap (λ r, failure_of (run_result r)) runs) with
  | Some e => Some (w1, runs, Promise (Rejected e))
  | None =>
    Some (emit (LogDebug (summary (length dirtyPkgs))) w1, runs,
          Promise (Fulfilled tt))
  end.

End Orchestrator.

(** The source directory [stripSourceDir] strips: the first one, in the
    configured order, that is a prefix of the file when followed by the
    separator. *)
Definition matching_source (path : NodePath) (pkgFile : string)
    (source : string) : bool :=
  startsWith pkgFile (source +:+ path_sep path).

(** ** A small project, for the examples

    A plain model of Node's path functions on POSIX paths that are already
    normalised, and a project of two packages. *)

Module Sample.

Definition join (segments : list string) : string :=
  String.concat "/" (List.filter (λ s, negb (String.eqb s "")) segments).

(** The directory [from] is resolved against the working directory [cwd],
    [.] being [cwd] itself. *)
Definition relative (cwd from to : string) : string :=
  let base := if String.eqb from "." then cwd else cwd +:+ "/" +:+ from in
  if startsWith to (base +:+ "/")
  then substring_from (String.length (base +:+ "/")) to
  else to.

Fixpoint before_last_slash (s : string) : option string :=
  match s with
  | EmptyString => None
  | String c s' =>
    match before_last_slash s' with
    | Some d => Some (String c d)
    | None => if Ascii.eqb c "/" then Some EmptyString else None
    end
  end.

Definition dirname (p : string) : string :=
  default "." (before_last_slash p).

Definition posix : NodePath :=
  mkNodePath join (relative "/prj") dirname "/".

(** Loaders. *)
Definition returning (u : string) (v : value) : Loader :=
  mkLoader u (λ c _, (c, Return (Plain v))) "".

Definition deferring (u : string) (v : value) : Loader :=
  mkLoader u (λ c _, (c, Return (Deferred (Fulfilled v)))) "".

Definition throwing (u msg : string) : Loader :=
  mkLoader u (λ c _, (c, Throw (mkError msg))) "".

Definition rejecting (u msg : string) : Loader :=
  mkLoader u (λ c _, (c, Return (Deferred (Rejected (mkError msg))))) "".

(** Returns the content with [options] appended. *)
Definition suffixing (u suffix : string) : Loader :=
  mkLoader u
    (λ c o, (c, Return (Plain match content c with
                              | VStr s => VStr (s +:+ o)
                              | v => v
                              end)))
    suffix.

(** [context.extraArtifacts[f] = v], on an object without the key [f];
    returns nothing. *)
Definition emitting (u f : string) (v : value) : Loader :=
  mkLoader u
    (λ c _, (mkContext (content c) (filePath c)
               (extraArtifacts c ++ [(f, v)]) (log c),
             Return (Plain VUndefined)))
    "".

Definition chain_for (absFile : string) : list Loader :=
  if String.eqb absFile "/prj/src/a/b.js" then
    [suffixing "append" "!"; emitting "extra" "src/a/b.map" (VStr "{}")]
  else if String.eqb absFile "/prj/node_modules/dep/lib/x.js" then
    [deferring "stamp" (VStr "stamped")]
  else [].

Definition find (_ : string) (globs : list string) : list string :=
  match globs with
  | g :: _ =>
    if String.eqb g "/prj/./src/**/*"
    then ["src/a/b.js"; "src/notes.txt"; "src/c.css"]
    else if String.eqb g "/prj/node_modules/dep/**/*"
    then ["node_modules/dep/lib/x.js"]
    else []
  | [] => []
  end.

Definition dest_dir (pkg : PkgDesc) : string :=
  if isRoot pkg then "build" else "build/" +:+ dir pkg.

Definition project : Project :=
  mkProject "/prj" ["src"] ["src"] chain_for find
    (λ p globs, map (String.append p) globs) dest_dir 2.

(** The same project with a second source directory. *)
Definition two_sources : Project :=
  mkProject "/prj" ["src"; "lib"] ["src"; "lib"] chain_for find
    (λ p globs, map (String.append p) globs) dest_dir 2.

Definition rootPkg : PkgDesc := mkPkg "app@1.0.0" "." true false.
Definition depPkg : PkgDesc := mkPkg "dep@2.0.0" "node_modules/dep" false false.
Definition cleanPkg : PkgDesc := mkPkg "old@0.1.0" "node_modules/old" false true.

Definition disk : World :=
  mkWorld (<["/prj/src/a/b.js" := "let x"]>
            (<["/prj/node_modules/dep/lib/x.js" := "y"]> ∅)) [].

(** Two completion orders: as started, and last started first. *)
Definition in_order (outs : list (string * option JsError)) := outs.
Definition last_first (outs : list (string * option JsError)) := reverse outs.

(** An operation that notes the file it is given, and fails on [c.js]. *)
Definition noting (x : string) (seen : list string)
    : list string * Completion unit :=
  (seen ++ [x],
   if String.eqb x "c.js" then Promise (Rejected (mkError "c.js is broken"))
   else Promise (Fulfilled tt)).

Definition five_files : list string :=
  ["a.js"; "b.js"; "c.js"; "d.js"; "e.js"].

Definition blank : FileContext := mkContext (VStr "") "f.js" [] [].

End Sample.

(** ** More of the engine *)

(** The loader [l], with a promise it returns already fulfilled taken at
    the value it is fulfilled with. *)
Definition settle_now (l : Loader) : Loader :=
  mkLoader (use l)
    (λ c o,
       let '(c1, r) := exec l c o in
       (c1, match r with
            | Return (Deferred (Fulfilled v)) => Return (Plain v)
            | _ => r
            end))
    (options l).

(** The text last written at [f] in a run of effects, if any. *)
Definition last_written (f : string) (evs : list Effect) : option string :=
  last (omap (λ e, match e with
                   | WriteFile p data => if decide (p = f) then Some data else None
                   | _ => None
                   end) evs).

(** The file system after a run of effects. *)
Definition replay (evs : list Effect) (m : gmap string string)
    : gmap string string :=
  fold_left (λ m e, match e with
                    | WriteFile p data => <[p := data]> m
                    | _ => m
                    end) evs m.

(** What [writeLoadersResult] adds to the journal for a context. *)
Definition result_events (path : NodePath) (project : Project)
    (srcPkg destPkg : PkgDesc) (c : FileContext) : list Effect :=
  match defined_content (content c) with
  | Some data =>
    write_events path project destPkg
      (pkg_relative path project srcPkg (filePath c)) data
  | None => []
  end ++ flat_map (extra_writes path project srcPkg destPkg) (extraArtifacts c).

(** ** [JsonModifier] and [Project] of the JS toolkit

    [_escapeProp] of [JsonModifier], and the getters [exports], [imports],
    [sources], [workDir] and [pkgManager] of [Project]. A [FilePath] is
    taken as the POSIX string it is built from. The values read from the
    configuration with [prop.get] are optional fields: [None] is a missing
    key. *)

Module Toolkit.

(** [name.replace(/\./g, '\\.')] *)
Fixpoint _escapeProp (name : string) : string :=
  match name with
  | EmptyString => EmptyString
  | String c rest =>
    if Ascii.eqb c "."
    then String "\" (String "." (_escapeProp rest))
    else String c (_escapeProp rest)
  end.

(** A dot with no backslash right before it; [escaped] tells whether the
    character before the string is a backslash. *)
Fixpoint bare_dot (escaped : bool) (s : string) : bool :=
  match s with
  | EmptyString => false
  | String c rest =>
    (Ascii.eqb c "." && negb escaped) || bare_dot (Ascii.eqb c "\") rest
  end.

(** The number of dots of a string. *)
Fixpoint dots (s : string) : nat :=
  match s with
  | EmptyString => 0
  | String c rest => (if Ascii.eqb c "." then 1 else 0) + dots rest
  end.

(** Truth of a value that is a string or [undefined]. *)
Definition truthy (s : option string) : bool :=
  match s with
  | Some s => negb (String.eqb s "")
  | None => false
  end.

(** [source.startsWith('./') ? source : `./${source}`] *)
Definition dot_slash (source : string) : string :=
  if startsWith source "./" then source else "./" +:+ source.

(** The getter [sources], on the configured list. *)
Definition sources (configured : option (list string)) : list string :=
  dot_slash <$> default [] configured.


(** What the getter [exports] makes of the [main] entry of [package.json]. *)
Definition main_export (main : string) : string :=
  if startsWith main "/" then "." +:+ main
  else if negb (startsWith main ".") then "./" +:+ main
  else main.

(** The getter [exports], when nothing is cached: on the configured
    exports, the [main] entry of [package.json] and whether [index.js]
    exists in the source directory. *)
Definition exports (configured : option (gmap string string))
    (pkgJson_main : option string) (index_exists : bool)
    : gmap string string :=
  let _exports := default ∅ configured in
  if negb (truthy (_exports !! "main")) then
    match pkgJson_main with
    | Some main =>
      if truthy (Some main) then <["main" := main_export main]> _exports
      else if index_exists then <["main" := "./index.js"]> _exports
      else _exports
    | None =>
      if index_exists then <["main" := "./index.js"]> _exports
      else _exports
    end
  else _exports.

Record ImportsConfig : Type := mkImportsConfig {
  provider : string;
  version : string
}.

(** The name an entry of the imports of [provider] stands for. *)
Definition imported_name (provider pkgName : string) : string :=
  if decide (pkgName = "/") then provider else pkgName.

(** The getter [imports], when nothing is cached: on the entries of the
    configured imports, each with the entries of its own object. *)
Definition imports (configured : option (list (string * list (string * string))))
    : gmap string ImportsConfig :=
  fold_left
    (λ _imports '(provider, config),
       fold_left
         (λ _imports '(pkgName, version),
            <[imported_name provider pkgName := mkImportsConfig provider version]>
              _imports)
         config _imports)
    (default [] configured) ∅.

(** The imports the configuration lists, in the order the getter meets
    them. *)
Definition listed_imports (configured : list (string * list (string * string)))
    : list (string * ImportsConfig) :=
  flat_map
    (λ '(provider, config),
       map (λ '(pkgName, version),
              (imported_name provider pkgName, mkImportsConfig provider version))
         config)
    configured.

Inductive PkgManager : Type := npm | yarn.

(** What the machine answers: whether each lock file exists in the project
    directory, and whether each command could be spawned. *)
Record Machine : Type := mkMachine {
  yarn_lock : bool;
  package_lock : bool;
  yarn_runs : bool;
  npm_runs : bool
}.

(** The body of the getter [pkgManager] when nothing is cached: the
    commands it spawns, and the value it stores ([None] is [null]). *)
Definition detect (m : Machine) : list string * option PkgManager :=
  let both_locks := yarn_lock m && package_lock m in
  let yarnLockPresent := if both_locks then false else yarn_lock m in
  let pkgLockPresent := if both_locks then false else package_lock m in
  if yarnLockPresent then ([], Some yarn)
  else if pkgLockPresent then ([], Some npm)
  else
    let both_run := yarn_runs m && npm_runs m in
    let yarnPresent := if both_run then false else yarn_runs m in
    let npmPresent := if both_run then false else npm_runs m in
    (["yarn"; "npm"],
     if yarnPresent then Some yarn
     else if npmPresent then Some npm
     else None).

(** The getter [pkgManager]: [_pkgManager] is the cache, [None] when it is
    [undefined]. It gives the cache as it leaves it, the commands spawned
    and the value returned. *)
Definition pkgManager (m : Machine) (_pkgManager : option (option PkgManager))
    : option (option PkgManager) * list string * option PkgManager :=
  match _pkgManager with
  | Some v => (Some v, [], v)
  | None => let '(spawned, v) := detect m in (Some v, spawned, v)
  end.

End Toolkit.

(** A project whose files all go through a loader that throws, and one
    whose files all go through a loader whose promise rejects. *)
Module Failing.

Definition throwing_project : Project :=
  mkProject "/prj" ["src"] ["src"]
    (λ _, [Sample.suffixing "a" "1"; Sample.throwing "t" "stop"])
    Sample.find (λ p globs, map (String.append p) globs) Sample.dest_dir 2.

Definition rejecting_project : Project :=
  mkProject "/prj" ["src"] ["src"]
    (λ _, [Sample.emitting "e" "foo.txt" (VStr "bar");
           Sample.rejecting "r" "boom"])
    Sample.find (λ p globs, map (String.append p) globs) Sample.dest_dir 2.

End Failing.

(** ** What the orchestrator owes to the per-file operation *)

(** The operations seen to settle, each with its failure if it failed, in
    the order in which they were seen. *)
Fixpoint settled {Item} (evs : list (SchedEvent Item))
    : list (Item * option JsError) :=
  match evs with
  | [] => []
  | Settle x failure :: rest => (x, failure) :: settled rest
  | Dispatch _ :: rest => settled rest
  end.

(** The outcome of [processFile] on each file of a list, each on the world
    the files before it left. *)
Fixpoint file_outcomes (path : NodePath) (project : Project)
    (srcPkg destPkg : PkgDesc) (prjSrcFiles : list string) (w : World)
    : list (string * option JsError) :=
  match prjSrcFiles with
  | [] => []
  | f :: rest =>
    let r := processFile path project srcPkg destPkg f w in
    (f, failure_of r.2) :: file_outcomes path project srcPkg destPkg rest r.1
  end.

(** The world after [processFile] on each file of a list, in order. *)
Definition files_world (path : NodePath) (project : Project)
    (srcPkg destPkg : PkgDesc) (prjSrcFiles : list string) (w : World)
    : World :=
  fold_left (λ w f, (processFile path project srcPkg destPkg f w).1)
    prjSrcFiles w.

(** For one package: the line logged, then [processFile] on each of its
    files, with the destination package [processPackage] makes. *)
Definition package_outcomes (path : NodePath) (project : Project)
    (srcPkg : PkgDesc) (w : World) : list (string * option JsError) :=
  file_outcomes path project srcPkg (clone srcPkg (getDestDir project srcPkg))
    (package_files project srcPkg) (emit (LogDebug (applying srcPkg)) w).

Definition package_world (path : NodePath) (project : Project)
    (srcPkg : PkgDesc) (w : World) : World :=
  files_world path project srcPkg (clone srcPkg (getDestDir project srcPkg))
    (package_files project srcPkg) (emit (LogDebug (applying srcPkg)) w).

(** The world after the packages of a list, one after the other. *)
Definition packages_world (path : NodePath) (project : Project)
    (pkgs : list PkgDesc) (w : World) : World :=
  fold_left (λ w p, package_world path project p w) pkgs w.

(** [processFile] succeeds on every file of every package of a list. *)
Fixpoint all_files_succeed (path : NodePath) (project : Project)
    (pkgs : list PkgDesc) (w : World) : Prop :=
  match pkgs with
  | [] => True
  | p :: rest =>
    Forall (λ o, o.2 = None) (package_outcomes path project p w)
    ∧ all_files_succeed path project rest (package_world path project p w)
  end.

(** The runs are those of the packages of a list, in order, from the world
    [w]: each run is of its package and of the files found for it; it
    starts each of these files once, in order; the operations it sees
    settle are [processFile] on these files, with the outcome
    [processFile] has; and its promise is fulfilled exactly when all of
    them succeeded, and otherwise rejected with the error of one that
    failed. *)
Fixpoint faithful_runs (path : NodePath) (project : Project)
    (pkgs : list PkgDesc) (w : World) (runs : list PackageRun) : Prop :=
  match pkgs, runs with
  | [], [] => True
  | p :: pkgs', r :: runs' =>
    run_pkg r = p
    ∧ run_files r = package_files project p
    ∧ dispatched (run_events r) = package_files project p
    ∧ settled (run_events r) ≡ₚ package_outcomes path project p w
    ∧ (run_result r = Promise (Fulfilled tt)
       ↔ Forall (λ o, o.2 = None) (package_outcomes path project p w))
    ∧ (∀ e, run_result r = Promise (Rejected e) →
            ∃ f, (f, Some e) ∈ package_outcomes path project p w)
    ∧ (∀ e, run_result r ≠ SyncThrow e)
    ∧ faithful_runs path project pkgs' (package_world path project p w) runs'
  | _, _ => False
  end.

(** A loader that assigns [context.content] itself and returns nothing,
    and a loader that returns nothing on a context without content and the
    text [late] on any other. *)
Module Mutating.

Definition assigning (u text : string) : Loader :=
  mkLoader u
    (λ c _, (mkContext (VStr text) (filePath c) (extraArtifacts c) (log c),
             Return (Plain VUndefined)))
    "".

Definition filling (u : string) : Loader :=
  mkLoader u
    (λ c _, (c, Return (Plain match content c with
                              | VNull | VUndefined => VUndefined
                              | VStr _ => VStr "late"
                              end)))
    "".

End Mutating.

(** [v] and [v'] are the same value. *)
Definition value_eqb (v v' : value) : bool := bool_decide (v = v').

(** Along the run from the context [c], every loader of the chain returns
    "no value" and leaves [content] as it finds it. *)
Fixpoint silent_along (loaders : list Loader) (c : FileContext) : bool :=
  match loaders with
  | [] => true
  | l :: ls =>
    match returned_value (exec l c (options l)).2 with
    | Some VUndefined =>
      value_eqb (content (exec l c (options l)).1) (content c)
      && silent_along ls (apply_loader c l)
    | _ => false
    end
  end.

(** The values the loaders of a chain return in the run from the context
    [c] ("no value" for a loader that fails). *)
Fixpoint returned_values (loaders : list Loader) (c : FileContext)
    : list value :=
  match loaders with
  | [] => []
  | l :: ls =>
    default VUndefined (returned_value (exec l c (options l)).2)
      :: returned_values ls (apply_loader c l)
  end.

(** The value returned by the last loader that returns one. *)
Definition last_value (vs : list value) : option value :=
  last (List.filter strict_ne_undefined vs).

(** The sentence "when the last loader that returns a value returns
    [null], the content is [null] after the run, the primary file is not
    written and the extra artifacts with defined content are", at a chain,
    a context and a world. *)
Definition null_is_no_output (path : NodePath) (project : Project)
    (srcPkg destPkg : PkgDesc) (loaders : list Loader) (c : FileContext)
    (w : World) : Prop :=
  last_value (returned_values loaders c) = Some VNull →
  let r := runLoaders loaders 0 (pipeline_start c) in
  content (context r.1) = VNull
  ∧ journal (writeLoadersResult path project srcPkg destPkg (context r.1) w).1
    = journal w ++
      flat_map (extra_writes path project srcPkg destPkg)
        (extraArtifacts (context r.1)).

(** * Properties *)

(** ** The loader pipeline *)

Lemma runLoaders_done loaders i st :
  length loaders ≤ i →
  runLoaders loaders i st = (st, Promise (Fulfilled (content (context st)))).
Proof.
  intros Hi. rewrite runLoaders_equation_1.
  destruct (decide (length loaders ≤ i)); [reflexivity | lia].
Qed.

(** The recursion on the index calls the loaders of the list one after the
    other. *)
Lemma runLoaders_run_chain rest : ∀ done st,
  runLoaders (done ++ rest) (length done) st = run_chain rest (length done) st.
Proof.
  induction rest as [|loader rest IH]; intros done st.
  - rewrite runLoaders_done; [reflexivity|]. rewrite app_nil_r. lia.
  - rewrite runLoaders_equation_1.
    destruct (decide (length (done ++ loader :: rest) ≤ length done)) as [Hle|Hgt].
    { exfalso. clear -Hle. rewrite length_app in Hle. simpl in Hle. lia. }
    simpl.
    rewrite (list_lookup_middle done rest loader (length done) eq_refl). simpl.
    destruct (exec loader (context st) (options loader)) as [c1 [r|e]]; simpl;
      [|reflexivity].
    destruct (Promise_resolve r) as [v|e]; simpl; [|reflexivity].
    specialize (IH (done ++ [loader])).
    rewrite <- app_assoc, length_app in IH. simpl in IH.
    rewrite IH. replace (length done + 1) with (S (length done)) by lia.
    reflexivity.
Qed.

Lemma runLoaders_from_start loaders st :
  runLoaders loaders 0 st = run_chain loaders 0 st.
Proof. apply (runLoaders_run_chain loaders []). Qed.

(** What one step of the engine does to the context, in the words of the
    specification. *)
Lemma apply_loader_take_content l c c1 r v :
  exec l c (options l) = (c1, Return r) →
  Promise_resolve r = Fulfilled v →
  apply_loader c l = take_content c1 v.
Proof.
  intros He Hr. unfold apply_loader. rewrite He.
  destruct r as [v'|[v'|e]]; simpl in Hr; inversion Hr; subst;
    destruct v; reflexivity.
Qed.

Lemma apply_loader_no_value l c :
  returned_value (exec l c (options l)).2 = Some VUndefined →
  apply_loader c l = (exec l c (options l)).1.
Proof.
  unfold apply_loader. destruct (exec l c (options l)) as [c1 r]. simpl.
  intros ->. reflexivity.
Qed.

Lemma apply_loader_value l c v :
  returned_value (exec l c (options l)).2 = Some v →
  v ≠ VUndefined →
  apply_loader c l = assign_content (exec l c (options l)).1 v.
Proof.
  unfold apply_loader. destruct (exec l c (options l)) as [c1 r]. simpl.
  intros -> Hv. destruct v; [contradiction | reflexivity | reflexivity].
Qed.

Lemma handed_contexts_indices ls : ∀ i c,
  (handed_contexts ls i c).*1 = seq i (length ls).
Proof.
  induction ls as [|l ls IH]; intros i c; simpl; [reflexivity|].
  f_equal. apply IH.
Qed.

(** A chain whose loaders all return runs to its end. *)
Lemma run_chain_all_return ls : ∀ i st,
  all_return ls (context st) = true →
  run_chain ls i st =
    (mkPipeline (fold_left apply_loader ls (context st))
       (invoked st ++ handed_contexts ls i (context st)),
     Promise (Fulfilled (content (fold_left apply_loader ls (context st))))).
Proof.
  induction ls as [|l ls IH]; intros i [c calls]; simpl.
  - intros _. rewrite app_nil_r. reflexivity.
  - destruct (exec l c (options l)) as [c1 [r|e]] eqn:He; simpl;
      [|discriminate].
    destruct (Promise_resolve r) as [v|e] eqn:Hr.
    + rewrite (apply_loader_take_content l c c1 r v He Hr).
      destruct r as [v'|[v'|e']]; simpl in *; try discriminate;
        intros Hall; rewrite IH by exact Hall; simpl;
        rewrite <- app_assoc; reflexivity.
    + destruct r as [v'|[v'|e']]; simpl in *; discriminate.
Qed.

Lemma runLoaders_all_return (loaders : list Loader) (c : FileContext) :
  all_return loaders c = true →
  runLoaders loaders 0 (pipeline_start c) =
    (mkPipeline (fold_left apply_loader loaders c)
       (handed_contexts loaders 0 c),
     Promise (Fulfilled (content (fold_left apply_loader loaders c)))).
Proof.
  intros Hall. rewrite runLoaders_from_start.
  apply (run_chain_all_return loaders 0 (pipeline_start c) Hall).
Qed.

(** C1. When every loader of the chain returns (a value or "no value", at
    once or through a promise), the pipeline calls the loaders in the order
    of the chain, each exactly once, each on the context its predecessors
    left, and resolves with the content of the final context, which is the
    left-to-right fold of the loaders' transforms: a loader that returns
    "no value" leaves [content] as it is, any other value replaces it. *)
Theorem runLoaders_fold (loaders : list Loader) (c : FileContext) :
  all_return loaders c = true →
  let final := fold_left apply_loader loaders c in
  runLoaders loaders 0 (pipeline_start c) =
    (mkPipeline final (handed_contexts loaders 0 c),
     Promise (Fulfilled (content final)))
  ∧ (handed_contexts loaders 0 c).*1 = seq 0 (length loaders).
Proof.
  intros Hall final. split.
  - apply runLoaders_all_return. exact Hall.
  - apply handed_contexts_indices.
Qed.

Lemma runLoaders_fold_witness :
  let chain := [Sample.suffixing "a" "1"; Sample.returning "u" VUndefined;
                Sample.deferring "n" (VStr "x"); Sample.suffixing "b" "2"] in
  all_return chain Sample.blank = true ∧
  (runLoaders chain 0 (pipeline_start Sample.blank)).2 =
    Promise (Fulfilled (VStr "x2")).
Proof.
  intros chain. split; [reflexivity|].
  destruct (runLoaders_fold chain Sample.blank eq_refl) as [-> _].
  reflexivity.
Defined.

Lemma failure_of_then_adopt {A} (k : Completion A) :
  failure_of (then_adopt k) = failure_of k.
Proof. destruct k as [e|[a|e]]; reflexivity. Qed.

(** Running through a prefix of loaders that all return. *)
Lemma run_chain_app pre : ∀ rest i st,
  all_return pre (context st) = true →
  let mid := mkPipeline (fold_left apply_loader pre (context st))
               (invoked st ++ handed_contexts pre i (context st)) in
  (run_chain (pre ++ rest) i st).1 = (run_chain rest (i + length pre) mid).1 ∧
  failure_of (run_chain (pre ++ rest) i st).2 =
    failure_of (run_chain rest (i + length pre) mid).2.
Proof.
  induction pre as [|l pre IH]; intros rest i [c calls]; simpl.
  - intros _. rewrite app_nil_r, Nat.add_0_r. split; reflexivity.
  - destruct (exec l c (options l)) as [c1 r0] eqn:He.
    assert (Hstep : ∀ r v, r0 = Return r → Promise_resolve r = Fulfilled v →
              all_return pre (apply_loader c l) = true →
              let k1 := run_chain (pre ++ rest) (S i)
                          (mkPipeline (take_content c1 v) (calls ++ [(i, c)])) in
              let k2 := run_chain rest (i + S (length pre))
                          (mkPipeline (fold_left apply_loader pre (apply_loader c l))
                             (calls ++ (i, c) :: handed_contexts pre (S i)
                                                   (apply_loader c l))) in
              k1.1 = k2.1 ∧ failure_of (then_adopt k1.2) = failure_of k2.2).
    { intros r v -> Hr Hall.
      rewrite (apply_loader_take_content l c c1 r v He Hr) in *.
      specialize (IH rest (S i) (mkPipeline (take_content c1 v)
                                   (calls ++ [(i, c)])) Hall).
      simpl in IH. rewrite <- app_assoc in IH. simpl in IH.
      replace (i + S (length pre)) with (S i + length pre) by lia.
      simpl. rewrite failure_of_then_adopt. exact IH. }
    destruct r0 as [[v|[v|e]]|e]; simpl; try discriminate; intros Hall.
    + specialize (Hstep (Plain v) v eq_refl eq_refl Hall). simpl in Hstep.
      destruct (run_chain (pre ++ rest) _ _) as [st1 k1]. exact Hstep.
    + specialize (Hstep (Deferred (Fulfilled v)) v eq_refl eq_refl Hall).
      simpl in Hstep.
      destruct (run_chain (pre ++ rest) _ _) as [st1 k1]. exact Hstep.
Qed.

(** When the loaders before loader [l] return and [l] fails, the loaders
    after [l] are not called. The error surfaced is annotated with the
    identifier of [l] when [l] threw, and is the error of the rejection, as
    it is, when the promise [l] returned rejects. *)
Lemma runLoaders_first_failure (pre post : list Loader) (l : Loader)
    (c : FileContext) :
  all_return pre c = true →
  let ci := fold_left apply_loader pre c in
  returned_value (exec l ci (options l)).2 = None →
  (invoked (runLoaders (pre ++ l :: post) 0 (pipeline_start c)).1).*1
    = seq 0 (S (length pre)) ∧
  failure_of (runLoaders (pre ++ l :: post) 0 (pipeline_start c)).2
    = surfaced_error l (exec l ci (options l)).2.
Proof.
  intros Hall ci Hfail. rewrite runLoaders_from_start.
  destruct (run_chain_app pre (l :: post) 0 (pipeline_start c) Hall)
    as [H1 H2].
  rewrite H1, H2. clear H1 H2. simpl. fold ci.
  assert (Hidx : ((handed_contexts pre 0 c).*1 ++ [length pre])
                 = seq 0 (S (length pre))).
  { rewrite handed_contexts_indices, seq_S. reflexivity. }
  destruct (exec l ci (options l)) as [c1 [[v|[v|e]]|e]];
    simpl in *; try discriminate;
    rewrite fmap_app; simpl; split; auto.
Qed.

(** C2, at a chain whose first loader returns a promise that rejects with
    the message "boom": the second loader is not called, and the pipeline
    rejects with the message "boom", which lacks the prefix
    "Loader 'a' failed: ". *)
Theorem runLoaders_rejection_not_annotated :
  let chain := [Sample.rejecting "a" "boom";
                Sample.returning "b" (VStr "never")] in
  let '(st, k) := runLoaders chain 0 (pipeline_start Sample.blank) in
  (invoked st).*1 = [0]
  ∧ k = Promise (Rejected (mkError "boom"))
  ∧ failure_of k ≠ Some (mkError "Loader 'a' failed: boom").
Proof. vm_compute. repeat split; discriminate. Qed.

(** The sibling case: the same chain with a first loader that throws. *)
Example runLoaders_throw_annotated :
  let chain := [Sample.throwing "a" "boom";
                Sample.returning "b" (VStr "never")] in
  runLoaders chain 0 (pipeline_start Sample.blank) =
    (mkPipeline Sample.blank [(0, Sample.blank)],
     SyncThrow (mkError "Loader 'a' failed: boom")).
Proof. reflexivity. Qed.

(** ** What the engine leaves alone *)

Lemma frame_assign_content c v : frame (assign_content c v) = frame c.
Proof. reflexivity. Qed.

Lemma frame_take_content c v : frame (take_content c v) = frame c.
Proof. unfold take_content. destruct (strict_ne_undefined v); reflexivity. Qed.

Lemma run_chain_frame_steps ls : ∀ i st,
  ∃ cs, invoked (run_chain ls i st).1 = invoked st ++ cs ∧
        map frame (cs.*2 ++ [context (run_chain ls i st).1])
        = frame (context st) :: zip_with frame_left ls cs.*2.
Proof.
  induction ls as [|l ls IH]; intros i [c calls]; simpl.
  - exists []. rewrite app_nil_r. split; reflexivity.
  - unfold frame_left at 1.
    destruct (exec l c (options l)) as [c1 [r|e]] eqn:He; simpl.
    + destruct (Promise_resolve r) as [v|e]; simpl.
      * destruct (IH (S i) (mkPipeline (take_content c1 v) (calls ++ [(i, c)])))
          as (cs & Hcs & Hfr).
        destruct (run_chain ls _ _) as [st' k]. simpl in *.
        exists ((i, c) :: cs). split.
        { rewrite Hcs, <- app_assoc. reflexivity. }
        simpl. f_equal. etransitivity; [exact Hfr|].
        rewrite frame_take_content, He. reflexivity.
      * exists [(i, c)]. split; [reflexivity|]. simpl.
        unfold frame_left. rewrite He. by destruct ls.
    + exists [(i, c)]. split; [reflexivity|]. simpl.
      unfold frame_left. rewrite He. by destruct ls.
Qed.

Section FrameOrder.
Variable R : relation (string * list (string * value) * list LogEntry).
Hypothesis R_trans : Transitive R.

Lemma run_chain_frame_rel ls : ∀ i st f0,
  (∀ l ci, l ∈ ls → R (frame ci) (frame_left l ci)) →
  R f0 (frame (context st)) →
  Forall (λ call, R f0 (frame call.2)) (invoked st) →
  R f0 (frame (context (run_chain ls i st).1)) ∧
  Forall (λ call, R f0 (frame call.2)) (invoked (run_chain ls i st).1).
Proof using R_trans.
  induction ls as [|l ls IH]; intros i [c calls] f0 Hpres Hc Hcalls; simpl.
  - split; assumption.
  - assert (Hl : R f0 (frame_left l c)).
    { etransitivity; [exact Hc|]. apply Hpres. left. }
    assert (Hcalls' : Forall (λ call, R f0 (frame call.2)) (calls ++ [(i, c)])).
    { apply Forall_app. split; [assumption|]. repeat constructor. exact Hc. }
    unfold frame_left in Hl.
    destruct (exec l c (options l)) as [c1 [r|e]]; simpl in *;
      [|split; assumption].
    destruct (Promise_resolve r) as [v|e]; simpl; [|split; assumption].
    specialize (IH (S i) (mkPipeline (take_content c1 v) (calls ++ [(i, c)])) f0).
    destruct (run_chain ls _ _) as [st' k]. simpl in *.
    apply IH; [| rewrite frame_take_content |]; try assumption.
    intros l' ci Hin. apply Hpres. right. exact Hin.
Qed.
End FrameOrder.

(** C8. Between two loader calls the engine changes no field of the
    context but [content]: the frame (file path, extra artifacts, log) of
    the context handed to the first loader is that of the initial context,
    the frame handed to each later loader, and the frame of the final
    context, is the frame the loader called before left. Hence any
    reflexive and transitive relation on frames that each loader of the
    chain keeps between the context it gets and the context it leaves
    (equality, when the loaders do not touch the frame; growth of the extra
    artifacts and of the log) holds between the initial context and the
    context of every call, and the final context. *)
Theorem runLoaders_frame (loaders : list Loader) (c : FileContext) :
  let st := (runLoaders loaders 0 (pipeline_start c)).1 in
  map frame ((invoked st).*2 ++ [context st])
    = frame c :: zip_with frame_left loaders (invoked st).*2
  ∧ ∀ R : relation (string * list (string * value) * list LogEntry),
      Reflexive R → Transitive R →
      (∀ l ci, l ∈ loaders → R (frame ci) (frame_left l ci)) →
      Forall (λ ci, R (frame c) (frame ci)) ((invoked st).*2 ++ [context st]).
Proof.
  intros st. subst st. rewrite runLoaders_from_start. split.
  - destruct (run_chain_frame_steps loaders 0 (pipeline_start c))
      as (cs & Hcs & Hfr).
    simpl in Hcs. rewrite Hcs. exact Hfr.
  - intros R Hrefl Htrans Hpres.
    destruct (run_chain_frame_rel R Htrans loaders 0 (pipeline_start c)
                (frame c) Hpres (Hrefl _) (Forall_nil_2 _)) as [Hfin Hcalls].
    apply Forall_app. split.
    + apply Forall_fmap. exact Hcalls.
    + repeat constructor. exact Hfin.
Qed.

Lemma runLoaders_frame_witness :
  let chain := [Sample.suffixing "a" "1"; Sample.returning "n" VNull;
                Sample.throwing "t" "stop"] in
  let st := (runLoaders chain 0 (pipeline_start Sample.blank)).1 in
  Forall (λ ci, filePath ci = "f.js" ∧ extraArtifacts ci = [] ∧ log ci = [])
    ((invoked st).*2 ++ [context st]).
Proof.
  intros chain st.
  destruct (runLoaders_frame chain Sample.blank) as [_ H].
  specialize (H eq).
  eapply Forall_impl.
  - apply H.
    + intros x. reflexivity.
    + intros x y z -> ->. reflexivity.
    + intros l ci Hin. unfold chain in Hin.
      repeat (apply elem_of_cons in Hin as [->|Hin]); try reflexivity.
      by apply elem_of_nil in Hin.
  - intros ci Heq. simpl in Heq. inversion Heq. auto.
Defined.

(** ** The result writer *)

Lemma substring_from_append p s :
  substring_from (String.length p) (p +:+ s) = s.
Proof. induction p as [|a p IH]; simpl; [reflexivity | exact IH]. Qed.

Lemma startsWith_append s p :
  startsWith s p = true → s = p +:+ substring_from (String.length p) s.
Proof.
  unfold startsWith. revert s.
  induction p as [|a p IH]; intros s; simpl.
  - destruct s; reflexivity.
  - destruct s as [|b s]; simpl; [discriminate|].
    destruct (ascii_dec a b) as [->|_]; [|discriminate].
    intros H.
    change (String b s = String b (p +:+ substring_from (String.length p) s)).
    f_equal. apply IH. exact H.
Qed.

Lemma startsWith_prefix p s : startsWith (p +:+ s) p = true.
Proof.
  unfold startsWith. induction p as [|a p IH]; simpl.
  - destruct s; reflexivity.
  - destruct (ascii_dec a a); [exact IH | contradiction].
Qed.

Lemma stripSourceDir_loop_find path sources pkgFile :
  stripSourceDir_loop path sources pkgFile =
    match List.find (matching_source path pkgFile) sources with
    | Some source =>
        substring_from (String.length (source +:+ path_sep path)) pkgFile
    | None => pkgFile
    end.
Proof.
  induction sources as [|s rest IH]; simpl; [reflexivity|].
  unfold matching_source at 1.
  destruct (startsWith pkgFile (s +:+ path_sep path)); [reflexivity | exact IH].
Qed.

Lemma find_first_match {A} (f : A → bool) pre x post :
  Forall (λ y, f y = false) pre → f x = true →
  List.find f (pre ++ x :: post) = Some x.
Proof.
  induction 1 as [|y pre Hy _ IH]; simpl; intros Hx.
  - rewrite Hx. reflexivity.
  - rewrite Hy. apply IH. exact Hx.
Qed.

Lemma find_no_match {A} (f : A → bool) l :
  Forall (λ y, f y = false) l → List.find f l = None.
Proof. induction 1 as [|y l Hy _ IH]; simpl; [|rewrite Hy]; auto. Qed.

Lemma stripSourceDir_no_match path project pkgFile :
  Forall (λ s, matching_source path pkgFile s = false)
    (project_sources_asPlatform project) →
  stripSourceDir path project pkgFile = pkgFile.
Proof.
  intros Hnone. unfold stripSourceDir.
  rewrite stripSourceDir_loop_find, (find_no_match _ _ Hnone). reflexivity.
Qed.

Lemma stripSourceDir_one_prefix path project pkgFile pre source post :
  project_sources_asPlatform project = pre ++ source :: post →
  Forall (λ s, matching_source path pkgFile s = false) pre →
  matching_source path pkgFile source = true →
  pkgFile = (source +:+ path_sep path) +:+ stripSourceDir path project pkgFile.
Proof.
  intros Hsrc Hpre Hm. unfold stripSourceDir.
  rewrite stripSourceDir_loop_find, Hsrc,
    (find_first_match _ pre source post Hpre Hm).
  apply startsWith_append. exact Hm.
Qed.

(** C10. [stripSourceDir] strips one prefix and no more: the result is the
    file without the prefix made of the first configured source directory
    that matches and the separator, whatever the result itself starts with;
    a file that no configured source directory matches comes back as it
    is. *)
Theorem stripSourceDir_first_match (path : NodePath) (project : Project)
    (pkgFile : string) :
  let sources := project_sources_asPlatform project in
  stripSourceDir path project pkgFile =
    match List.find (matching_source path pkgFile) sources with
    | Some source =>
        substring_from (String.length (source +:+ path_sep path)) pkgFile
    | None => pkgFile
    end
  ∧ (Forall (λ s, matching_source path pkgFile s = false) sources →
     stripSourceDir path project pkgFile = pkgFile)
  ∧ (∀ pre source post,
       sources = pre ++ source :: post →
       Forall (λ s, matching_source path pkgFile s = false) pre →
       matching_source path pkgFile source = true →
       pkgFile = (source +:+ path_sep path) +:+ stripSourceDir path project pkgFile).
Proof.
  intros sources. split; [|split].
  - apply stripSourceDir_loop_find.
  - apply stripSourceDir_no_match.
  - intros pre source post. apply stripSourceDir_one_prefix.
Qed.

Lemma stripSourceDir_first_match_witness :
  "src/lib/x.js" = ("src" +:+ "/") +:+ "lib/x.js"
  ∧ stripSourceDir Sample.posix Sample.two_sources "src/lib/x.js" = "lib/x.js"
  ∧ stripSourceDir Sample.posix Sample.two_sources "lib/src/x.js" = "src/x.js"
  ∧ stripSourceDir Sample.posix Sample.two_sources "src/src/x.js" = "src/x.js"
  ∧ stripSourceDir Sample.posix Sample.two_sources "test/x.js" = "test/x.js".
Proof.
  destruct (stripSourceDir_first_match Sample.posix Sample.two_sources
              "src/lib/x.js") as (_ & _ & Hfirst).
  destruct (stripSourceDir_first_match Sample.posix Sample.two_sources
              "test/x.js") as (_ & Hnone & _).
  split; [reflexivity|]. split.
  - specialize (Hfirst [] "src" ["lib"] eq_refl (Forall_nil_2 _) eq_refl).
    apply (f_equal (substring_from 4)) in Hfirst. simpl in Hfirst.
    symmetry. exact Hfirst.
  - split; [reflexivity|]. split; [reflexivity|].
    apply Hnone. repeat constructor.
Defined.

Lemma string_append_assoc (a b c : string) :
  (a +:+ b) +:+ c = a +:+ (b +:+ c).
Proof.
  induction a as [|x a IH]; [reflexivity|].
  change (String x ((a +:+ b) +:+ c) = String x (a +:+ (b +:+ c))).
  f_equal. exact IH.
Qed.

Lemma writeRuleFile_journal path project destPkg pkgFile data w :
  journal (writeRuleFile path project destPkg pkgFile data w)
    = journal w ++ write_events path project destPkg pkgFile data.
Proof.
  unfold writeRuleFile, writeFileSync, emit, write_events. simpl.
  rewrite <- app_assoc. reflexivity.
Qed.

Lemma writeRuleFile_files path project destPkg pkgFile data w :
  files (writeRuleFile path project destPkg pkgFile data w)
    !! rule_file_path path project destPkg pkgFile = Some data.
Proof. unfold writeRuleFile, writeFileSync. simpl. apply lookup_insert_eq. Qed.

(** C4. [writeRuleFile] places a file of a dependency package at its
    package-relative path, as it is, under the destination directory; it
    places a file of the root package at its package-relative path without
    the prefix of the first configured source directory that matches (and
    as it is when none matches). *)
Theorem writeRuleFile_destination (path : NodePath) (project : Project)
    (destPkg : PkgDesc) (pkgFile data : string) (w : World) :
  let sources := project_sources_asPlatform project in
  let w' := writeRuleFile path project destPkg pkgFile data w in
  let placed_at (rel : string) :=
    let absFile := path_join path [project_dir project; dir destPkg; rel] in
    journal w' =
      journal w ++ [EnsureDir (path_dirname path absFile); WriteFile absFile data]
    ∧ files w' !! absFile = Some data in
  (isRoot destPkg = false → placed_at pkgFile)
  ∧ (isRoot destPkg = true →
     ∀ pre source post rest,
       sources = pre ++ source :: post →
       Forall (λ s, matching_source path pkgFile s = false) pre →
       pkgFile = source +:+ path_sep path +:+ rest →
       placed_at rest)
  ∧ (isRoot destPkg = true →
     Forall (λ s, matching_source path pkgFile s = false) sources →
     placed_at pkgFile).
Proof.
  intros sources w' placed_at. subst w' placed_at. cbv beta zeta.
  rewrite writeRuleFile_journal.
  pose proof (writeRuleFile_files path project destPkg pkgFile data w) as Hf.
  unfold write_events, rule_file_path in *.
  pose proof (stripSourceDir_no_match path project pkgFile) as Hnone.
  pose proof (stripSourceDir_one_prefix path project pkgFile) as Hfirst.
  split; [|split].
  - intros Hroot. rewrite Hroot in *. split; [reflexivity | exact Hf].
  - intros Hroot pre source post rest Hsrc Hpre Hfile. rewrite Hroot in *.
    assert (Hm : matching_source path pkgFile source = true).
    { unfold matching_source. rewrite Hfile, <- string_append_assoc.
      apply startsWith_prefix. }
    specialize (Hfirst pre source post Hsrc Hpre Hm).
    assert (Hrest : stripSourceDir path project pkgFile = rest).
    { rewrite Hfile, <- string_append_assoc in Hfirst at 1.
      apply (f_equal (substring_from (String.length (source +:+ path_sep path))))
        in Hfirst.
      rewrite !substring_from_append in Hfirst. symmetry. exact Hfirst. }
    rewrite Hrest in *. split; [reflexivity | exact Hf].
  - intros Hroot Hno. rewrite Hroot, (Hnone Hno) in *.
    split; [reflexivity | exact Hf].
Qed.

Lemma writeRuleFile_destination_witness :
  journal (writeRuleFile Sample.posix Sample.project
             (clone Sample.rootPkg "build") "src/a/b.js" "x" Sample.disk)
    = [EnsureDir "/prj/build/a"; WriteFile "/prj/build/a/b.js" "x"]
  ∧ journal (writeRuleFile Sample.posix Sample.project
               (clone Sample.depPkg "build/node_modules/dep") "lib/x.js" "y"
               Sample.disk)
    = [EnsureDir "/prj/build/node_modules/dep/lib";
       WriteFile "/prj/build/node_modules/dep/lib/x.js" "y"].
Proof.
  split.
  - destruct (writeRuleFile_destination Sample.posix Sample.project
                (clone Sample.rootPkg "build") "src/a/b.js" "x" Sample.disk)
      as (_ & Hroot & _).
    destruct (Hroot eq_refl [] "src" [] "a/b.js" eq_refl (Forall_nil_2 _) eq_refl)
      as [Hj _].
    exact Hj.
  - destruct (writeRuleFile_destination Sample.posix Sample.project
                (clone Sample.depPkg "build/node_modules/dep") "lib/x.js" "y"
                Sample.disk) as (Hdep & _ & _).
    destruct (Hdep eq_refl) as [Hj _]. exact Hj.
Defined.

Lemma fold_write_extra path project srcPkg destPkg entries : ∀ w lg,
  let r := fold_left (write_extra path project srcPkg destPkg) entries (w, lg) in
  journal r.1 =
    journal w ++ flat_map (extra_writes path project srcPkg destPkg) entries
  ∧ r.2 = lg ++ flat_map (extra_diagnostics) entries.
Proof.
  induction entries as [|[f v] entries IH]; intros w lg.
  - simpl. rewrite !app_nil_r. split; reflexivity.
  - cbn [fold_left flat_map]. cbv zeta.
    change (write_extra path project srcPkg destPkg (w, lg) (f, v)) with
      (match defined_content v with
       | None => (w, lg)
       | Some data =>
         (writeRuleFile path project destPkg
            (pkg_relative path project srcPkg f) data w,
          log_info bundler_tag ("Rules generated extra artifact: " +:+ f) lg)
       end).
    unfold extra_writes at 1, extra_diagnostics at 1. cbn [fst snd].
    destruct (defined_content v) as [data|].
    + destruct (IH (writeRuleFile path project destPkg
                      (pkg_relative path project srcPkg f) data w)
                   (log_info bundler_tag
                      ("Rules generated extra artifact: " +:+ f) lg))
        as [H1 H2].
      cbv zeta in H1, H2. rewrite H1, H2, writeRuleFile_journal.
      unfold log_info. rewrite <- !app_assoc. split; reflexivity.
    + apply IH.
Qed.

Lemma writeLoadersResult_journal path project srcPkg destPkg c w :
  journal (writeLoadersResult path project srcPkg destPkg c w).1 =
    journal w ++
    match defined_content (content c) with
    | Some data =>
      write_events path project destPkg
        (pkg_relative path project srcPkg (filePath c)) data
    | None => []
    end
    ++ flat_map (extra_writes path project srcPkg destPkg) (extraArtifacts c)
  ∧ log (writeLoadersResult path project srcPkg destPkg c w).2 =
      log c ++ flat_map extra_diagnostics (extraArtifacts c).
Proof.
  unfold writeLoadersResult.
  set (w1 := match defined_content (content c) with
             | Some data => writeRuleFile _ _ _ _ data w
             | None => w
             end).
  pose proof (fold_write_extra path project srcPkg destPkg
                (extraArtifacts c) w1 (log c)) as [H1 H2].
  destruct (fold_left _ _ _) as [w2 lg]. simpl in *.
  split; [|exact H2].
  rewrite H1. subst w1.
  destruct (defined_content (content c)) as [data|].
  - rewrite writeRuleFile_journal, <- app_assoc. reflexivity.
  - reflexivity.
Qed.


(** The example of the specification: [foo.txt] set to [bar], and
    [gone.txt] set to [undefined]. *)
Example writeLoadersResult_foo_bar :
  let c := mkContext VUndefined "src/a/b.js"
             [("gone.txt", VUndefined); ("foo.txt", VStr "bar")] [] in
  let r := writeLoadersResult Sample.posix Sample.project Sample.rootPkg
             (clone Sample.rootPkg "build") c Sample.disk in
  journal r.1 = [EnsureDir "/prj/build"; WriteFile "/prj/build/foo.txt" "bar"]
  ∧ log r.2 = [mkLogEntry LInfo "liferay-npm-bundler"
                 "Rules generated extra artifact: foo.txt"].
Proof. split; reflexivity. Qed.

(** ** The per-file operation *)

(** C3. A file with an empty loader chain is left alone: [processFile]
    resolves at once, without reading the file, and the world is as it was
    (nothing written, no directory made, nothing reported). *)
Theorem processFile_empty_chain (path : NodePath) (project : Project)
    (srcPkg destPkg : PkgDesc) (prjSrcFile : string) (w : World) :
  loadersForFile project (path_join path [project_dir project; prjSrcFile]) = [] →
  processFile path project srcPkg destPkg prjSrcFile w
    = (w, Promise (Fulfilled tt)).
Proof. intros Hnone. unfold processFile. rewrite Hnone. reflexivity. Qed.

Lemma processFile_empty_chain_witness :
  loadersForFile Sample.project
    (path_join Sample.posix [project_dir Sample.project; "src/notes.txt"]) = []
  ∧ processFile Sample.posix Sample.project Sample.rootPkg
      (clone Sample.rootPkg "build") "src/notes.txt" Sample.disk
    = (Sample.disk, Promise (Fulfilled tt)).
Proof.
  split; [reflexivity|].
  apply (processFile_empty_chain Sample.posix Sample.project). reflexivity.
Defined.

Lemma all_return_app pre : ∀ rest c,
  all_return (pre ++ rest) c =
    all_return pre c && all_return rest (fold_left apply_loader pre c).
Proof.
  induction pre as [|l pre IH]; intros rest c; simpl; [reflexivity|].
  destruct (returned_value _); [apply IH | reflexivity].
Qed.

Lemma silent_chain post : ∀ c,
  Forall silent post →
  all_return post c = true ∧
  content (fold_left apply_loader post c) = content c.
Proof.
  induction post as [|l post IH]; intros c Hs; simpl; [split; reflexivity|].
  apply Forall_cons in Hs as [Hl Hpost].
  destruct (Hl c) as [Hret Hkeep]. rewrite Hret.
  destruct (IH (apply_loader c l) Hpost) as [Hall Hcont].
  split; [exact Hall|].
  rewrite Hcont, (apply_loader_no_value l c Hret). exact Hkeep.
Qed.

Lemma silent_along_chain post : ∀ c,
  silent_along post c = true →
  all_return post c = true ∧
  content (fold_left apply_loader post c) = content c.
Proof.
  induction post as [|l post IH]; intros c Hs; simpl in *; [split; reflexivity|].
  destruct (returned_value (exec l c (options l)).2) as [[| |s]|] eqn:Hret;
    try discriminate.
  apply andb_true_iff in Hs as [Hkeep Hs].
  apply bool_decide_eq_true in Hkeep.
  destruct (IH (apply_loader c l) Hs) as [Hall Hcont].
  split; [exact Hall|].
  rewrite Hcont, (apply_loader_no_value l c Hret). exact Hkeep.
Qed.

(** C9, as the code has it. [null] is a value for the pipeline and "no
    output" for the writer. When a loader returns [null] and each loader
    after it, on the context it receives in the run, returns "no value"
    and leaves [content] as it finds it, the pipeline resolves with [null]
    and leaves [null] as the content; [writeLoadersResult] then writes no
    primary file, and writes the extra artifacts with defined content all
    the same. *)
Theorem null_content_not_written (path : NodePath) (project : Project)
    (srcPkg destPkg : PkgDesc) (pre post : list Loader) (l : Loader)
    (c : FileContext) (w : World) :
  all_return pre c = true →
  returned_value (exec l (fold_left apply_loader pre c) (options l)).2
    = Some VNull →
  silent_along post (apply_loader (fold_left apply_loader pre c) l) = true →
  let r := runLoaders (pre ++ l :: post) 0 (pipeline_start c) in
  r.2 = Promise (Fulfilled VNull)
  ∧ content (context r.1) = VNull
  ∧ journal (writeLoadersResult path project srcPkg destPkg (context r.1) w).1
    = journal w ++
      flat_map (extra_writes path project srcPkg destPkg)
        (extraArtifacts (context r.1)).
Proof.
  intros Hpre Hnull Hpost r.
  set (ci := fold_left apply_loader pre c) in *.
  destruct (silent_along_chain post (apply_loader ci l) Hpost) as [Hall Hcont].
  assert (Hchain : all_return (pre ++ l :: post) c = true).
  { rewrite all_return_app, Hpre. simpl. fold ci. rewrite Hnull. exact Hall. }
  assert (Hfinal : content (fold_left apply_loader (pre ++ l :: post) c) = VNull).
  { rewrite fold_left_app. simpl. fold ci. rewrite Hcont.
    rewrite (apply_loader_value l ci VNull Hnull) by discriminate.
    reflexivity. }
  pose proof (runLoaders_all_return (pre ++ l :: post) c Hchain) as Hrun.
  subst r. rewrite Hrun. simpl. rewrite Hfinal.
  split; [reflexivity|]. split; [reflexivity|].
  destruct (writeLoadersResult_journal path project srcPkg destPkg
              (fold_left apply_loader (pre ++ l :: post) c) w) as (Hj & _).
  rewrite Hj, Hfinal. reflexivity.
Qed.

Lemma null_content_not_written_witness :
  let chain := [Sample.suffixing "a" "1"; Sample.returning "n" VNull;
                Mutating.filling "f";
                Sample.emitting "e" "foo.txt" (VStr "bar")] in
  let r := runLoaders chain 0 (pipeline_start Sample.blank) in
  r.2 = Promise (Fulfilled VNull)
  ∧ journal (writeLoadersResult Sample.posix Sample.project Sample.rootPkg
               (clone Sample.rootPkg "build") (context r.1) Sample.disk).1
    = [EnsureDir "/prj/build"; WriteFile "/prj/build/foo.txt" "bar"].
Proof.
  intros chain r.
  destruct (null_content_not_written Sample.posix Sample.project
              Sample.rootPkg (clone Sample.rootPkg "build")
              [Sample.suffixing "a" "1"]
              [Mutating.filling "f";
               Sample.emitting "e" "foo.txt" (VStr "bar")]
              (Sample.returning "n" VNull) Sample.blank Sample.disk)
    as (Hres & _ & Hj).
  - reflexivity.
  - reflexivity.
  - reflexivity.
  - split; [exact Hres|]. subst r chain. simpl app in Hj. rewrite Hj.
    reflexivity.
Defined.

(** C9 as it is worded fails: the last loader that returns a value returns
    [null], a later loader assigns [context.content] and returns nothing,
    and the primary file is written, with the text assigned. *)
Lemma null_then_assigned_is_written :
  let chain := [Sample.returning "n" VNull; Mutating.assigning "w" "kept"] in
  let r := runLoaders chain 0 (pipeline_start Sample.blank) in
  last_value (returned_values chain Sample.blank) = Some VNull
  ∧ content (context r.1) = VStr "kept"
  ∧ journal (writeLoadersResult Sample.posix Sample.project Sample.rootPkg
               (clone Sample.rootPkg "build") (context r.1) Sample.disk).1
    = [EnsureDir "/prj/build"; WriteFile "/prj/build/f.js" "kept"]
  ∧ ¬ null_is_no_output Sample.posix Sample.project Sample.rootPkg
        (clone Sample.rootPkg "build") chain Sample.blank Sample.disk.
Proof.
  intros chain r. split; [reflexivity|]. split; [reflexivity|].
  split; [reflexivity|].
  intros H. destruct (H eq_refl) as [Hc _]. vm_compute in Hc. discriminate.
Qed.

(** ** The bounded parallel runner *)

Section InFlight.
Context {Item : Type}.
Implicit Types evs : list (SchedEvent Item).

Lemma in_flight_app evs1 : ∀ evs2 n,
  in_flight (evs1 ++ evs2) n = in_flight evs2 (in_flight evs1 n).
Proof.
  induction evs1 as [|[x|x o] evs1 IH]; intros evs2 n; simpl;
    [reflexivity | apply IH | apply IH].
Qed.

Lemma in_flight_le evs : ∀ n,
  in_flight evs n ≤ n + length (dispatched evs).
Proof.
  induction evs as [|[x|x o] evs IH]; intros n; simpl.
  - lia.
  - specialize (IH (S n)). lia.
  - specialize (IH (pred n)). lia.
Qed.

Lemma dispatched_app evs1 evs2 :
  dispatched (evs1 ++ evs2) = dispatched evs1 ++ dispatched evs2.
Proof.
  induction evs1 as [|[x|x o] evs1 IH]; simpl; [reflexivity | | exact IH].
  f_equal. exact IH.
Qed.

Lemma failures_app evs1 evs2 :
  failures (evs1 ++ evs2) = failures evs1 ++ failures evs2.
Proof.
  induction evs1 as [|[x|x [e|]] evs1 IH]; simpl; try exact IH;
    [reflexivity|]. f_equal. exact IH.
Qed.

Lemma dispatched_take_le evs : ∀ k,
  length (dispatched (take k evs)) ≤ length (dispatched evs).
Proof.
  induction evs as [|[x|x o] evs IH]; intros [|k]; simpl; try lia.
  - specialize (IH k). lia.
  - specialize (IH k). lia.
Qed.

Lemma dispatched_wave (group : list Item) settled :
  dispatched (wave_events group settled) = group.
Proof.
  unfold wave_events. rewrite dispatched_app.
  assert (H1 : dispatched (map Dispatch group) = group).
  { induction group as [|x g IH]; simpl; [reflexivity | by rewrite IH]. }
  assert (H2 : dispatched (map (λ o, Settle o.1 o.2) settled) = []).
  { induction settled as [|o s IH]; simpl; [reflexivity | exact IH]. }
  rewrite H1, H2. apply app_nil_r.
Qed.

Lemma failures_wave (group : list Item) settled :
  failures (wave_events group settled) = omap snd settled.
Proof.
  unfold wave_events. rewrite failures_app.
  assert (H1 : failures (map Dispatch group) = []).
  { induction group as [|x g IH]; simpl; [reflexivity | exact IH]. }
  rewrite H1. simpl.
  induction settled as [|[x [e|]] s IH]; simpl; [reflexivity | | exact IH].
  f_equal. exact IH.
Qed.

(** A wave that settles as many operations as it started ends with none
    in flight. *)
Lemma in_flight_wave (group : list Item) settled :
  length settled = length group →
  in_flight (wave_events group settled) 0 = 0.
Proof.
  intros Hlen. unfold wave_events. rewrite in_flight_app.
  assert (H1 : ∀ n, in_flight (map Dispatch group) n = n + length group).
  { clear Hlen. induction group as [|x g IH]; intros n; simpl; [lia|].
    rewrite IH. lia. }
  assert (H2 : ∀ n, in_flight (map (λ o, Settle o.1 o.2) settled) n
                    = n - length settled).
  { clear Hlen H1. induction settled as [|o s IH]; intros n; simpl; [lia|].
    rewrite IH. lia. }
  rewrite H1, H2. lia.
Qed.

(** Waves of at most [N] operations, one after the other, never have
    more than [N] operations in flight. *)
Lemma in_flight_waves (N : nat) waves :
  Forall (λ wv : list Item * list (Item * option JsError),
            length wv.1 ≤ N ∧ length wv.2 = length wv.1) waves →
  ∀ k, in_flight (take k (concat (map (λ wv, wave_events wv.1 wv.2) waves))) 0
       ≤ N.
Proof.
  induction 1 as [|[g s] waves [Hg Hs] _ IH]; intros k; simpl in *.
  - rewrite take_nil. simpl. lia.
  - rewrite take_app, in_flight_app.
    destruct (decide (k ≤ length (wave_events g s))) as [Hk|Hk].
    + replace (k - length (wave_events g s)) with 0 by lia.
      rewrite take_0. simpl.
      pose proof (in_flight_le (take k (wave_events g s)) 0) as H1.
      pose proof (dispatched_take_le (wave_events g s) k) as H2.
      rewrite dispatched_wave in H2. lia.
    + rewrite (take_ge (wave_events g s)) by lia. rewrite (in_flight_wave g s Hs). apply IH.
Qed.
End InFlight.

Section RunnerFacts.
Context {Item St : Type}.
Variable completion_order :
  list (Item * option JsError) → list (Item * option JsError).
Variable op : Item → St → St * Completion unit.
Hypothesis completion_perm : ∀ outs, completion_order outs ≡ₚ outs.

Lemma dispatch_chunk_items chunk : ∀ s,
  (dispatch_chunk op chunk s).2.*1 = chunk.
Proof.
  induction chunk as [|x chunk IH]; intros s; simpl; [reflexivity|].
  destruct (op x s) as [s1 k]. specialize (IH s1).
  destruct (dispatch_chunk op chunk s1) as [s2 outs]. simpl in *.
  f_equal. exact IH.
Qed.

Lemma dispatch_chunk_app a : ∀ b s,
  dispatch_chunk op (a ++ b) s =
    ((dispatch_chunk op b (dispatch_chunk op a s).1).1,
     (dispatch_chunk op a s).2 ++
     (dispatch_chunk op b (dispatch_chunk op a s).1).2).
Proof.
  induction a as [|x a IH]; intros b s; simpl.
  - destruct (dispatch_chunk op b s); reflexivity.
  - destruct (op x s) as [s1 k]. rewrite IH.
    destruct (dispatch_chunk op a s1) as [s2 outs]. reflexivity.
Qed.

(** The state the operations leave is the one got by running them one
    after the other in the order of the list. *)
Lemma dispatch_chunk_store chunk : ∀ s,
  (dispatch_chunk op chunk s).1 = fold_left (λ s x, (op x s).1) chunk s.
Proof.
  induction chunk as [|x chunk IH]; intros s; simpl; [reflexivity|].
  rewrite <- IH. destruct (op x s) as [s1 k]. simpl.
  destruct (dispatch_chunk op chunk s1) as [s2 outs]. reflexivity.
Qed.

Lemma runInChunks_fuel_waves (N : nat) (items : list Item) :
  1 ≤ N →
  ∀ fuel offset rs,
    length items - offset < fuel →
    ∃ rs' waves,
      runInChunks_fuel completion_order op fuel items N offset rs = Some rs'
      ∧ sched rs' =
          sched rs ++ concat (map (λ wv, wave_events wv.1 wv.2) waves)
      ∧ concat waves.*1 = drop offset items
      ∧ Forall (λ wv, 1 ≤ length wv.1 ∧ length wv.1 ≤ N ∧ wv.2.*1 ≡ₚ wv.1)
          waves
      ∧ store rs' = (dispatch_chunk op (drop offset items) (store rs)).1
      ∧ concat waves.*2
          ≡ₚ (dispatch_chunk op (drop offset items) (store rs)).2
      ∧ surfaced rs' =
          match surfaced rs with
          | Some e => Some e
          | None => head (omap snd (concat waves.*2))
          end.
Proof.
  intros HN. induction fuel as [|fuel IH]; intros offset rs Hfuel; [lia|].
  simpl. destruct (length items <=? offset) eqn:Hend.
  - apply Nat.leb_le in Hend. exists rs, []. simpl.
    rewrite app_nil_r, (drop_ge items offset Hend). simpl.
    repeat split; try reflexivity; try constructor.
    by destruct (surfaced rs).
  - apply Nat.leb_gt in Hend.
    set (chunk := take N (drop offset items)).
    pose proof (dispatch_chunk_items chunk (store rs)) as Hitems.
    destruct (dispatch_chunk op chunk (store rs)) as [s1 outs] eqn:Hd.
    simpl in Hitems.
    match goal with
    | |- context [runInChunks_fuel _ _ fuel items N (offset + N) ?r] =>
      destruct (IH (offset + N) r ltac:(lia))
        as (rs' & waves & Hrun & Hsched & Hcat & Hall & Hstore & Hperm & Hsurf)
    end.
    simpl in Hsched, Hstore, Hperm, Hsurf.
    assert (Hsplit : drop offset items = chunk ++ drop (offset + N) items).
    { subst chunk. rewrite <- drop_drop, take_drop. reflexivity. }
    exists rs', ((chunk, completion_order outs) :: waves). simpl.
    rewrite Hsplit, dispatch_chunk_app, Hd. simpl.
    split; [exact Hrun|]. split.
    { rewrite Hsched, <- app_assoc. reflexivity. }
    split; [f_equal; exact Hcat|]. split.
    { constructor; [|exact Hall]. simpl.
      assert (Hlen : length chunk = N `min` (length items - offset)).
      { subst chunk. rewrite length_take, length_drop. reflexivity. }
      split; [lia|]. split; [lia|].
      rewrite (completion_perm outs). by rewrite Hitems. }
    split; [exact Hstore|]. split.
    { apply Permutation_app; [apply completion_perm | exact Hperm]. }
    rewrite Hsurf. destruct (surfaced rs) as [e|]; [reflexivity|].
    unfold first_failure.
    etransitivity; [|symmetry; etransitivity;
                     [apply (f_equal head), omap_app | apply head_app]].
    reflexivity.
Qed.
End RunnerFacts.

Lemma dispatched_waves {Item} (waves : list (list Item * list (Item * option JsError))) :
  dispatched (concat (map (λ wv, wave_events wv.1 wv.2) waves))
    = concat waves.*1.
Proof.
  induction waves as [|[g s] waves IH]; simpl; [reflexivity|].
  rewrite dispatched_app, dispatched_wave. f_equal. exact IH.
Qed.

Lemma failures_waves {Item} (waves : list (list Item * list (Item * option JsError))) :
  failures (concat (map (λ wv, wave_events wv.1 wv.2) waves))
    = omap snd (concat waves.*2).
Proof.
  induction waves as [|[g s] waves IH]; simpl; [reflexivity|].
  rewrite failures_app, failures_wave.
  etransitivity; [|symmetry; apply omap_app]. f_equal. exact IH.
Qed.

Lemma omap_snd_nil {Item} (outs : list (Item * option JsError)) :
  omap snd outs = [] ↔ Forall (λ o, o.2 = None) outs.
Proof.
  induction outs as [|[x [e|]] outs IH]; simpl.
  - split; [constructor | reflexivity].
  - split; [discriminate|]. intros H. apply Forall_cons in H as [H _].
    discriminate.
  - rewrite IH. split; [by constructor|].
    intros H. by apply Forall_cons in H as [_ H].
Qed.

(** C6. With a bound [N] of at least one, and whatever the order in which
    the operations of a chunk settle, the runner returns, and its events
    are a sequence of waves: each wave starts a group of at least one and
    at most [N] items and then sees exactly these settle; the groups, one
    after the other, are the list of items. So every item is started
    exactly once, in the order of the list; after any number of events at
    most [N] operations are in flight; the operations have run on the
    shared state one after the other; and the promise returned is rejected,
    with the first failure seen, exactly when some operation failed. *)
Theorem runInChunks_bounded {Item St : Type}
    (completion_order : list (Item * option JsError) → list (Item * option JsError))
    (op : Item → St → St * Completion unit)
    (items : list Item) (N : nat) (s : St) :
  1 ≤ N →
  (∀ outs, completion_order outs ≡ₚ outs) →
  ∃ rs waves,
    runInChunks completion_order op items N 0 s = Some rs
    ∧ dispatched (sched rs) = items
    ∧ (∀ k, in_flight (take k (sched rs)) 0 ≤ N)
    ∧ sched rs = concat (map (λ wv, wave_events wv.1 wv.2) waves)
    ∧ concat waves.*1 = items
    ∧ Forall (λ wv, 1 ≤ length wv.1 ∧ length wv.1 ≤ N ∧ wv.2.*1 ≡ₚ wv.1) waves
    ∧ store rs = fold_left (λ s x, (op x s).1) items s
    ∧ concat waves.*2 ≡ₚ (dispatch_chunk op items s).2
    ∧ runner_result rs =
        match failures (sched rs) with
        | [] => Promise (Fulfilled tt)
        | e :: _ => Promise (Rejected e)
        end
    ∧ (runner_result rs = Promise (Fulfilled tt)
       ↔ Forall (λ o, o.2 = None) (dispatch_chunk op items s).2).
Proof.
  intros HN Hperm. unfold runInChunks.
  destruct (runInChunks_fuel_waves completion_order op Hperm N items HN
              (S (length items)) 0 (mkRunner s [] None) ltac:(simpl; lia))
    as (rs & waves & Hrun & Hsched & Hcat & Hall & Hstore & Hout & Hsurf).
  simpl in Hsched, Hcat, Hstore, Hout, Hsurf.
  exists rs, waves.
  assert (Hres : runner_result rs =
                 match failures (sched rs) with
                 | [] => Promise (Fulfilled tt)
                 | e :: _ => Promise (Rejected e)
                 end).
  { unfold runner_result. rewrite Hsurf, Hsched, failures_waves.
    by destruct (omap snd (concat waves.*2)). }
  split; [exact Hrun|]. split.
  { rewrite Hsched, dispatched_waves. exact Hcat. }
  split.
  { intros k. rewrite Hsched. apply in_flight_waves.
    eapply Forall_impl; [exact Hall|]. intros [g st] (_ & Hle & Hp). simpl in *.
    split; [exact Hle|]. apply Permutation_length in Hp.
    rewrite length_fmap in Hp. exact Hp. }
  split; [exact Hsched|]. split; [exact Hcat|]. split; [exact Hall|]. split.
  { rewrite Hstore. apply dispatch_chunk_store. }
  split; [exact Hout|]. split; [exact Hres|].
  rewrite Hres, Hsched, failures_waves, <- Hout, <- omap_snd_nil.
  destruct (omap snd (concat waves.*2)); split; congruence.
Qed.

Lemma runInChunks_bounded_witness :
  ∃ rs,
    runInChunks Sample.last_first Sample.noting Sample.five_files 2 0 [] = Some rs
    ∧ dispatched (sched rs) = Sample.five_files
    ∧ (∀ k, in_flight (take k (sched rs)) 0 ≤ 2)
    ∧ store rs = Sample.five_files
    ∧ runner_result rs = Promise (Rejected (mkError "c.js is broken")).
Proof.
  destruct (runInChunks_bounded Sample.last_first Sample.noting
              Sample.five_files 2 [])
    as (rs & waves & Hrun & Hd & Hfl & _ & _ & _ & Hst & _ & Hres & _).
  - lia.
  - intros outs. apply reverse_Permutation.
  - exists rs. split; [exact Hrun|]. split; [exact Hd|]. split; [exact Hfl|].
    split; [exact Hst|].
    vm_compute in Hrun. inversion Hrun; subst rs. reflexivity.
Defined.

(** ** The package orchestrator *)

Lemma debug_lines_app evs1 evs2 :
  debug_lines (evs1 ++ evs2) = debug_lines evs1 ++ debug_lines evs2.
Proof. apply omap_app. Qed.

Lemma debug_lines_extras path project srcPkg destPkg entries :
  debug_lines (flat_map (extra_writes path project srcPkg destPkg) entries) = [].
Proof.
  induction entries as [|[f v] entries IH]; simpl; [reflexivity|].
  rewrite debug_lines_app, IH. unfold extra_writes. simpl.
  destruct (defined_content v); reflexivity.
Qed.

(** [processFile] logs no debug line; it only adds to the journal. *)
Lemma processFile_journal path project srcPkg destPkg f w :
  ∃ new, journal (processFile path project srcPkg destPkg f w).1
           = journal w ++ new
         ∧ debug_lines new = [].
Proof.
  unfold processFile.
  destruct (length (loadersForFile project _) =? 0).
  { exists []. by rewrite app_nil_r. }
  destruct (files w !! _) as [data|]; [|exists []; by rewrite app_nil_r].
  destruct (runLoaders _ 0 _) as [st [e|[v|e]]];
    try (exists []; by rewrite app_nil_r).
  destruct (writeLoadersResult_journal path project srcPkg destPkg (context st) w)
    as (Hj & _).
  destruct (writeLoadersResult path project srcPkg destPkg (context st) w)
    as [w1 c1].
  simpl in *. rewrite Hj, <- !app_assoc. eexists. split; [reflexivity|].
  rewrite !debug_lines_app, debug_lines_extras.
  destruct (defined_content (content (context st))); reflexivity.
Qed.

Lemma processFile_fold_journal path project srcPkg destPkg fs : ∀ w,
  ∃ new, journal (fold_left
                    (λ w f, (processFile path project srcPkg destPkg f w).1)
                    fs w)
           = journal w ++ new
         ∧ debug_lines new = [].
Proof.
  induction fs as [|f fs IH]; intros w; simpl.
  - exists []. by rewrite app_nil_r.
  - destruct (processFile_journal path project srcPkg destPkg f w)
      as (new1 & H1 & D1).
    destruct (IH (processFile path project srcPkg destPkg f w).1)
      as (new2 & H2 & D2).
    exists (new1 ++ new2). rewrite H2, H1, <- app_assoc, debug_lines_app, D1, D2.
    split; reflexivity.
Qed.

Section OrchestratorFacts.
Variable path : NodePath.
Variable project : Project.
Variable completion_order :
  list (string * option JsError) → list (string * option JsError).
Hypothesis parallel_pos : 1 ≤ getMaxParallelFiles project.
Hypothesis completion_perm : ∀ outs, completion_order outs ≡ₚ outs.

(** One package: its files are all started, once each and in the order
    found, and one debug line is logged. *)
Lemma processPackage_run srcPkg w :
  ∃ w' r new,
    processPackage path project completion_order srcPkg w = Some (w', r)
    ∧ run_pkg r = srcPkg
    ∧ dispatched (run_events r) = package_files project srcPkg
    ∧ journal w' = journal w ++ new
    ∧ debug_lines new = [applying srcPkg].
Proof using parallel_pos completion_perm.
  unfold processPackage.
  unfold runInChunks.
  destruct (runInChunks_fuel_waves completion_order
              (processFile path project srcPkg
                 (clone srcPkg (getDestDir project srcPkg)))
              completion_perm (getMaxParallelFiles project)
              (package_files project srcPkg) parallel_pos
              (S (length (package_files project srcPkg))) 0
              (mkRunner (emit (LogDebug (applying srcPkg)) w) [] None)
              ltac:(simpl; lia))
    as (rs & waves & Hrun & Hsched & Hcat & _ & Hst & _).
  simpl in Hsched, Hcat, Hst. rewrite drop_0 in Hcat, Hst.
  rewrite dispatch_chunk_store in Hst.
  assert (Hd : dispatched (sched rs) = package_files project srcPkg)
    by (rewrite Hsched, dispatched_waves; exact Hcat).
  rewrite Hrun. simpl.
  destruct (processFile_fold_journal path project srcPkg
              (clone srcPkg (getDestDir project srcPkg))
              (package_files project srcPkg)
              (emit (LogDebug (applying srcPkg)) w)) as (new & Hj & Hdbg).
  eexists _, _, (LogDebug (applying srcPkg) :: new).
  split; [reflexivity|]. simpl. split; [reflexivity|]. split; [exact Hd|].
  rewrite Hst, Hj. simpl. rewrite <- app_assoc. split; [reflexivity|].
  change (debug_lines (LogDebug (applying srcPkg) :: new))
    with (applying srcPkg :: debug_lines new).
  rewrite Hdbg. reflexivity.
Qed.

Lemma process_all_runs pkgs : ∀ w,
  ∃ w' runs new,
    process_all path project completion_order pkgs w = Some (w', runs)
    ∧ run_pkg <$> runs = pkgs
    ∧ Forall (λ r, dispatched (run_events r)
                   = package_files project (run_pkg r)) runs
    ∧ journal w' = journal w ++ new
    ∧ debug_lines new = applying <$> pkgs.
Proof using parallel_pos completion_perm.
  induction pkgs as [|p pkgs IH]; intros w; simpl.
  - exists w, [], []. rewrite app_nil_r. repeat split; constructor.
  - destruct (processPackage_run p w) as (w1 & r & new1 & Hp & Hr & Hd & Hj1 & D1).
    destruct (IH w1) as (w2 & runs & new2 & Hall & Hrs & Hds & Hj2 & D2).
    rewrite Hp. simpl. rewrite Hall. simpl.
    exists w2, (r :: runs), (new1 ++ new2).
    split; [reflexivity|]. split; [by rewrite fmap_cons, Hr, Hrs|]. split.
    { constructor; [by rewrite Hr | exact Hds]. }
    rewrite Hj2, Hj1, <- app_assoc, debug_lines_app, D1, D2.
    split; reflexivity.
Qed.
End OrchestratorFacts.

Lemma failure_of_unit_None (k : Completion unit) :
  failure_of k = None ↔ k = Promise (Fulfilled tt).
Proof.
  destruct k as [e|[[]|e]]; simpl; split; congruence.
Qed.

Lemma first_run_failure_None (runs : list PackageRun) :
  head (omap (λ r, failure_of (run_result r)) runs) = None
  ↔ Forall (λ r, run_result r = Promise (Fulfilled tt)) runs.
Proof.
  induction runs as [|r runs IH]; simpl.
  - split; [constructor | reflexivity].
  - destruct (failure_of (run_result r)) as [e|] eqn:Hf; simpl.
    + split; [discriminate|]. intros H. apply Forall_cons in H as [H _].
      apply failure_of_unit_None in H. congruence.
    + rewrite IH. apply failure_of_unit_None in Hf.
      split; [by constructor|]. intros H. by apply Forall_cons in H as [_ H].
Qed.

Lemma applying_not_summary (srcPkg : PkgDesc) (n : nat) :
  applying srcPkg ≠ summary n.
Proof. unfold applying, summary. cbn [String.append]. discriminate. Qed.

Lemma settled_app {Item} (evs1 evs2 : list (SchedEvent Item)) :
  settled (evs1 ++ evs2) = settled evs1 ++ settled evs2.
Proof.
  induction evs1 as [|[x|x o] evs1 IH]; simpl; [reflexivity | exact IH |].
  f_equal. exact IH.
Qed.

Lemma settled_wave {Item} (group : list Item) outs :
  settled (wave_events group outs) = outs.
Proof.
  unfold wave_events. rewrite settled_app.
  assert (H1 : settled (map Dispatch group) = []).
  { induction group as [|x g IH]; simpl; [reflexivity | exact IH]. }
  rewrite H1. simpl.
  induction outs as [|[x o] outs IH]; simpl; [reflexivity|].
  f_equal. exact IH.
Qed.

Lemma settled_waves {Item}
    (waves : list (list Item * list (Item * option JsError))) :
  settled (concat (map (λ wv, wave_events wv.1 wv.2) waves))
    = concat waves.*2.
Proof.
  induction waves as [|[g o] waves IH]; simpl; [reflexivity|].
  rewrite settled_app, settled_wave. f_equal. exact IH.
Qed.

Lemma dispatch_chunk_file_outcomes path project srcPkg destPkg fs : ∀ w,
  (dispatch_chunk (processFile path project srcPkg destPkg) fs w).2
    = file_outcomes path project srcPkg destPkg fs w.
Proof.
  induction fs as [|f fs IH]; intros w; simpl; [reflexivity|].
  destruct (processFile path project srcPkg destPkg f w) as [w1 k] eqn:Hp.
  specialize (IH w1).
  destruct (dispatch_chunk _ fs w1) as [w2 outs]. simpl in *.
  f_equal. exact IH.
Qed.

Section OrchestratorFaithful.
Variable path : NodePath.
Variable project : Project.
Variable completion_order :
  list (string * option JsError) → list (string * option JsError).
Hypothesis parallel_pos : 1 ≤ getMaxParallelFiles project.
Hypothesis completion_perm : ∀ outs, completion_order outs ≡ₚ outs.

(** One package: the world it leaves is the one [processFile] leaves on its
    files in order, and the run is faithful to [processFile]. *)
Lemma processPackage_faithful srcPkg w :
  ∃ r new,
    processPackage path project completion_order srcPkg w
      = Some (package_world path project srcPkg w, r)
    ∧ faithful_runs path project [srcPkg] w [r]
    ∧ journal (package_world path project srcPkg w) = journal w ++ new
    ∧ debug_lines new = [applying srcPkg].
Proof using parallel_pos completion_perm.
  unfold processPackage, runInChunks.
  set (destPkg := clone srcPkg (getDestDir project srcPkg)).
  set (w0 := emit (LogDebug (applying srcPkg)) w).
  destruct (runInChunks_fuel_waves completion_order
              (processFile path project srcPkg destPkg)
              completion_perm (getMaxParallelFiles project)
              (package_files project srcPkg) parallel_pos
              (S (length (package_files project srcPkg))) 0
              (mkRunner w0 [] None) ltac:(simpl; lia))
    as (rs & waves & Hrun & Hsched & Hcat & _ & Hst & Hout & Hsurf).
  simpl in Hsched, Hcat, Hst, Hout, Hsurf.
  rewrite drop_0 in Hcat, Hst, Hout.
  rewrite dispatch_chunk_store in Hst.
  rewrite dispatch_chunk_file_outcomes in Hout.
  change (file_outcomes path project srcPkg destPkg
            (package_files project srcPkg) w0)
    with (package_outcomes path project srcPkg w) in Hout.
  change (fold_left _ (package_files project srcPkg) w0)
    with (package_world path project srcPkg w) in Hst.
  rewrite Hrun. simpl. rewrite Hst.
  destruct (processFile_fold_journal path project srcPkg destPkg
              (package_files project srcPkg) w0) as (new & Hj & Hdbg).
  eexists _, (LogDebug (applying srcPkg) :: new).
  split; [reflexivity|]. split; [|split].
  - simpl.
    assert (Hset : settled (sched rs) = concat waves.*2)
      by (rewrite Hsched; apply settled_waves).
    assert (Hhead : surfaced rs = head (omap snd (settled (sched rs))))
      by (rewrite Hset; exact Hsurf).
    split; [reflexivity|]. split; [reflexivity|]. split.
    { rewrite Hsched, dispatched_waves. exact Hcat. }
    split; [rewrite Hset; exact Hout|]. split; [|split; [|split; [|exact I]]].
    + unfold runner_result. rewrite Hhead, Hset, <- Hout, <- omap_snd_nil.
      destruct (omap snd (concat waves.*2)); simpl; split; congruence.
    + unfold runner_result. rewrite Hhead. intros e He.
      destruct (head (omap snd (settled (sched rs)))) as [e'|] eqn:Hh;
        [|discriminate].
      inversion He; subst e'. apply head_Some_elem_of in Hh.
      apply list_elem_of_omap in Hh as ([f o] & Hin & Ho). simpl in Ho.
      subst o. exists f. rewrite <- Hout, <- Hset. exact Hin.
    + intros e. unfold runner_result. destruct (surfaced rs); discriminate.
  - unfold package_world, files_world. fold destPkg. fold w0.
    rewrite Hj. simpl. rewrite <- app_assoc. reflexivity.
  - change (debug_lines (LogDebug (applying srcPkg) :: new))
      with (applying srcPkg :: debug_lines new).
    rewrite Hdbg. reflexivity.
Qed.

Lemma process_all_faithful pkgs : ∀ w,
  ∃ runs new,
    process_all path project completion_order pkgs w
      = Some (packages_world path project pkgs w, runs)
    ∧ faithful_runs path project pkgs w runs
    ∧ journal (packages_world path project pkgs w) = journal w ++ new
    ∧ debug_lines new = applying <$> pkgs.
Proof using parallel_pos completion_perm.
  induction pkgs as [|p pkgs IH]; intros w; simpl.
  - exists [], []. rewrite app_nil_r. repeat split.
  - destruct (processPackage_faithful p w) as (r & new1 & Hp & Hf & Hj1 & D1).
    destruct (IH (package_world path project p w))
      as (runs & new2 & Hall & Hfs & Hj2 & D2).
    rewrite Hp. simpl. rewrite Hall. simpl.
    exists (r :: runs), (new1 ++ new2). split; [reflexivity|]. split.
    { simpl in Hf. destruct Hf as (H1 & H2 & H3 & H4 & H5 & H6 & H7 & _).
      simpl. repeat split; try assumption; apply H5. }
    unfold packages_world in *. simpl.
    rewrite Hj2, Hj1, <- app_assoc, debug_lines_app, D1, D2.
    split; reflexivity.
Qed.
End OrchestratorFaithful.

Lemma faithful_runs_packages path project pkgs : ∀ w runs,
  faithful_runs path project pkgs w runs →
  run_pkg <$> runs = pkgs
  ∧ Forall (λ r, dispatched (run_events r)
                 = package_files project (run_pkg r)) runs
  ∧ (Forall (λ r, run_result r = Promise (Fulfilled tt)) runs
     ↔ all_files_succeed path project pkgs w).
Proof.
  induction pkgs as [|p pkgs IH]; intros w [|r runs] Hf; simpl in Hf;
    try contradiction.
  - repeat split; constructor.
  - destruct Hf as (H1 & H2 & H3 & H4 & H5 & H6 & H7 & Hrest).
    destruct (IH _ _ Hrest) as (I1 & I2 & I3).
    split; [by rewrite fmap_cons, H1, I1|]. split.
    { constructor; [by rewrite H1 | exact I2]. }
    simpl. rewrite Forall_cons, H5, I3. reflexivity.
Qed.

Lemma faithful_runs_no_throw path project pkgs : ∀ w runs,
  faithful_runs path project pkgs w runs →
  ∀ r, r ∈ runs → ∀ e, run_result r ≠ SyncThrow e.
Proof.
  induction pkgs as [|p pkgs IH]; intros w [|r0 runs] Hf r Hin;
    simpl in Hf; try contradiction.
  - by apply elem_of_nil in Hin.
  - destruct Hf as (_ & _ & _ & _ & _ & _ & H7 & Hrest).
    apply elem_of_cons in Hin as [->|Hin]; [exact H7 | eauto].
Qed.

(** C7. With a bound of at least one on the files in flight, [runRules]
    returns. It runs one package run for each package whose [clean] flag is
    false, in the order root first and then the dependencies, and none for
    a clean package. Each run is the run of [processFile] on the files
    found for its package: every one of them is started exactly once, the
    operations seen to settle are [processFile] on these files with the
    outcome [processFile] has, and the world [runRules] leaves is the one
    [processFile] leaves on the files of the dirty packages, package after
    package. The promise is fulfilled exactly when [processFile] succeeded
    on every file of every dirty package; then, after one debug line per
    dirty package, one summary line is logged, with the number of dirty
    packages. Otherwise the promise is rejected with the error of a run
    that failed, which is the error of a file of its package, and no
    summary is logged. *)
Theorem runRules_dirty_packages (path : NodePath) (project : Project)
    (completion_order :
       list (string * option JsError) → list (string * option JsError))
    (rootPkg : PkgDesc) (depPkgs : list PkgDesc) (w : World) :
  1 ≤ getMaxParallelFiles project →
  (∀ outs, completion_order outs ≡ₚ outs) →
  let dirtyPkgs := List.filter (λ p, negb (clean p)) (rootPkg :: depPkgs) in
  ∃ w' runs k new,
    runRules path project completion_order rootPkg depPkgs w
      = Some (w', runs, k)
    ∧ run_pkg <$> runs = dirtyPkgs
    ∧ Forall (λ r, dispatched (run_events r)
                   = package_files project (run_pkg r)) runs
    ∧ journal w' = journal w ++ new
    ∧ (Forall (λ r, run_result r = Promise (Fulfilled tt)) runs →
       k = Promise (Fulfilled tt)
       ∧ debug_lines new =
           (applying <$> dirtyPkgs) ++ [summary (length dirtyPkgs)])
    ∧ (¬ Forall (λ r, run_result r = Promise (Fulfilled tt)) runs →
       (∃ e, k = Promise (Rejected e))
       ∧ debug_lines new = applying <$> dirtyPkgs)
    ∧ faithful_runs path project dirtyPkgs w runs
    ∧ (k = Promise (Fulfilled tt)
       ↔ all_files_succeed path project dirtyPkgs w)
    ∧ (∀ e, k = Promise (Rejected e) →
            ∃ r, r ∈ runs ∧ run_result r = Promise (Rejected e))
    ∧ w' = (if succeeded k
            then emit (LogDebug (summary (length dirtyPkgs)))
                   (packages_world path project dirtyPkgs w)
            else packages_world path project dirtyPkgs w).
Proof.
  intros HN Hperm dirtyPkgs. unfold runRules. fold (dirty rootPkg depPkgs).
  change (dirty rootPkg depPkgs) with dirtyPkgs.
  destruct (process_all_faithful path project completion_order HN Hperm
              dirtyPkgs w) as (runs & new & Hall & Hfaith & Hj & Hdbg).
  destruct (faithful_runs_packages path project dirtyPkgs w runs Hfaith)
    as (Hpk & Hd & Hsucc).
  rewrite Hall. simpl.
  pose proof (first_run_failure_None runs) as Hnone.
  destruct (head (omap (λ r, failure_of (run_result r)) runs)) as [e|] eqn:Hhead.
  - exists (packages_world path project dirtyPkgs w), runs,
      (Promise (Rejected e)), new.
    split; [reflexivity|]. split; [exact Hpk|]. split; [exact Hd|].
    split; [exact Hj|]. split.
    { intros Hok. apply Hnone in Hok. discriminate. }
    split. { intros _. split; [by exists e | exact Hdbg]. }
    split; [exact Hfaith|]. split.
    { split; [discriminate|]. intros Hok. apply Hsucc, Hnone in Hok.
      discriminate. }
    split; [|reflexivity].
    intros e' He'. inversion He'; subst e'.
    apply head_Some_elem_of, list_elem_of_omap in Hhead as (r & Hin & Hr).
    exists r. split; [exact Hin|].
    destruct (run_result r) as [e1|[[]|e1]] eqn:Hres; simpl in Hr.
    + exfalso. exact (faithful_runs_no_throw _ _ _ _ _ Hfaith r Hin e1 Hres).
    + discriminate.
    + inversion Hr. reflexivity.
  - eexists _, runs, (Promise (Fulfilled tt)), (new ++ [LogDebug _]).
    split; [reflexivity|]. split; [exact Hpk|]. split; [exact Hd|].
    split; [simpl; by rewrite Hj, <- app_assoc|]. split.
    { intros _. split; [reflexivity|]. rewrite debug_lines_app, Hdbg.
      reflexivity. }
    split. { intros Hbad. exfalso. apply Hbad, Hnone. reflexivity. }
    split; [exact Hfaith|]. split.
    { split; [intros _; apply Hsucc, Hnone; reflexivity | reflexivity]. }
    split; [discriminate | reflexivity].
Qed.

Lemma runRules_dirty_packages_witness :
  ∃ w' runs,
    runRules Sample.posix Sample.project Sample.last_first Sample.rootPkg
      [Sample.depPkg; Sample.cleanPkg] Sample.disk
      = Some (w', runs, Promise (Fulfilled tt))
    ∧ run_pkg <$> runs = [Sample.rootPkg; Sample.depPkg]
    ∧ debug_lines (journal w') =
        ["Applying rules to package 'app@1.0.0'...";
         "Applying rules to package 'dep@2.0.0'...";
         "Applied rules to 2 packages"]
    ∧ files w' !! "/prj/build/a/b.js" = Some "let x!"
    ∧ files w' !! "/prj/build/node_modules/dep/lib/x.js" = Some "stamped".
Proof.
  destruct (runRules_dirty_packages Sample.posix Sample.project
              Sample.last_first Sample.rootPkg
              [Sample.depPkg; Sample.cleanPkg] Sample.disk)
    as (w' & runs & k & new & Hrun & Hpk & _ & Hj & Hok & _ & _ & Hiff & _ & Hw).
  - simpl. lia.
  - intros outs. apply reverse_Permutation.
  - assert (Hk : k = Promise (Fulfilled tt)).
    { apply Hiff. vm_compute. repeat constructor. }
    subst k. exists w', runs. split; [exact Hrun|]. split; [exact Hpk|].
    rewrite Hw. vm_compute. repeat split.
Defined.

(** * More properties of the engine *)

(** ** The pipeline from any index *)

Lemma runLoaders_drop loaders i st :
  runLoaders loaders i st = run_chain (drop i loaders) i st.
Proof.
  destruct (decide (i ≤ length loaders)) as [Hi|Hi].
  - pose proof (runLoaders_run_chain (drop i loaders) (take i loaders) st) as H.
    rewrite take_drop, length_take_le in H by exact Hi. exact H.
  - rewrite runLoaders_done, drop_ge by lia. reflexivity.
Qed.

(** X1. When the loaders before a loader return and that loader fails, the
    run stops there: the calls made are those of the loaders up to it, each
    on the context its predecessors left, the context stays as the failing
    loader left it, and the error of the run is the loader's error, with
    the loader's identifier before its message when the loader threw, and
    as it is when the promise the loader returned rejects. *)
Theorem runLoaders_failure (pre post : list Loader) (l : Loader)
    (c : FileContext) :
  all_return pre c = true →
  let ci := fold_left apply_loader pre c in
  returned_value (exec l ci (options l)).2 = None →
  let r := runLoaders (pre ++ l :: post) 0 (pipeline_start c) in
  invoked r.1 = handed_contexts pre 0 c ++ [(length pre, ci)]
  ∧ context r.1 = (exec l ci (options l)).1
  ∧ failure_of r.2 = surfaced_error l (exec l ci (options l)).2.
Proof.
  intros Hall ci Hfail r. subst r. rewrite runLoaders_from_start.
  destruct (run_chain_app pre (l :: post) 0 (pipeline_start c) Hall)
    as [H1 H2].
  rewrite H1, H2. clear H1 H2. simpl. fold ci.
  destruct (exec l ci (options l)) as [c1 [[v|[v|e]]|e]];
    simpl in *; try discriminate; repeat split; reflexivity.
Qed.

Lemma runLoaders_failure_witness :
  let chain := [Sample.emitting "e" "foo.txt" (VStr "bar");
                Sample.rejecting "r" "boom";
                Sample.returning "b" (VStr "never")] in
  let chain' := [Sample.suffixing "a" "1"; Sample.throwing "t" "boom";
                 Sample.returning "b" (VStr "never")] in
  ((invoked (runLoaders chain 0 (pipeline_start Sample.blank)).1).*1 = [0; 1]
   ∧ extraArtifacts (context (runLoaders chain 0 (pipeline_start Sample.blank)).1)
     = [("foo.txt", VStr "bar")]
   ∧ failure_of (runLoaders chain 0 (pipeline_start Sample.blank)).2
     = Some (mkError "boom"))
  ∧ ((invoked (runLoaders chain' 0 (pipeline_start Sample.blank)).1).*1 = [0; 1]
     ∧ content (context (runLoaders chain' 0 (pipeline_start Sample.blank)).1)
       = VStr "1"
     ∧ failure_of (runLoaders chain' 0 (pipeline_start Sample.blank)).2
       = Some (mkError "Loader 't' failed: boom")).
Proof.
  intros chain chain'. split.
  - destruct (runLoaders_failure [Sample.emitting "e" "foo.txt" (VStr "bar")]
                [Sample.returning "b" (VStr "never")]
                (Sample.rejecting "r" "boom") Sample.blank eq_refl eq_refl)
      as (H1 & H2 & H3).
    subst chain. simpl app in *. rewrite H1, H2, H3. repeat split.
  - destruct (runLoaders_failure [Sample.suffixing "a" "1"]
                [Sample.returning "b" (VStr "never")]
                (Sample.throwing "t" "boom") Sample.blank eq_refl eq_refl)
      as (H1 & H2 & H3).
    subst chain'. simpl app in *. rewrite H1, H2, H3. repeat split.
Defined.

(** X2. [runLoaders] throws, instead of returning a promise, exactly when
    the loader at [firstLoaderIndex] itself throws, and then it throws that
    loader's error with the loader's identifier put before the message. A
    failure of any later loader, and a rejection, come as a rejected
    promise. *)
Theorem runLoaders_throws_iff (loaders : list Loader) (i : nat)
    (st : PipelineState) (e : JsError) :
  (runLoaders loaders i st).2 = SyncThrow e
  ↔ ∃ l e0, loaders !! i = Some l
            ∧ (exec l (context st) (options l)).2 = Throw e0
            ∧ e = annotate (use l) e0.
Proof.
  rewrite runLoaders_drop.
  assert (Hhead : loaders !! i = head (drop i loaders)).
  { rewrite head_lookup, lookup_drop, Nat.add_0_r. reflexivity. }
  rewrite Hhead. destruct (drop i loaders) as [|l rest]; simpl.
  - split; [discriminate|]. intros (l & e0 & Hl & _). discriminate.
  - destruct (exec l (context st) (options l)) as [c1 [r|e1]] eqn:Hex; simpl.
    + split.
      * destruct (Promise_resolve r) as [v|e1]; [|discriminate].
        destruct (run_chain rest _ _) as [st' [e1|p]]; discriminate.
      * intros (l' & e0 & Hl & He & _). inversion Hl; subst l'.
        rewrite Hex in He. discriminate.
    + split.
      * intros H. inversion H. exists l, e1. rewrite Hex. auto.
      * intros (l' & e0 & Hl & He & ->). inversion Hl; subst l'.
        rewrite Hex in He. inversion He. reflexivity.
Qed.

Lemma run_chain_shift ls : ∀ i j st st',
  context st = context st' →
  context (run_chain ls i st).1 = context (run_chain ls j st').1
  ∧ (run_chain ls i st).2 = (run_chain ls j st').2
  ∧ ∃ cs, invoked (run_chain ls i st).1
            = invoked st ++ zip (seq i (length cs)) cs
          ∧ invoked (run_chain ls j st').1
            = invoked st' ++ zip (seq j (length cs)) cs.
Proof.
  induction ls as [|l ls IH]; intros i j [c calls] [c' calls'] Hc;
    simpl in Hc; subst c'; simpl.
  - split; [reflexivity|]. split; [reflexivity|].
    exists []. simpl. rewrite !app_nil_r. split; reflexivity.
  - destruct (exec l c (options l)) as [c1 [r|e1]]; simpl.
    + destruct (Promise_resolve r) as [v|e1]; simpl.
      * destruct (IH (S i) (S j)
                    (mkPipeline (take_content c1 v) (calls ++ [(i, c)]))
                    (mkPipeline (take_content c1 v) (calls' ++ [(j, c)]))
                    eq_refl) as (H1 & H2 & cs & H3 & H4).
        destruct (run_chain ls (S i) _) as [s1 k1].
        destruct (run_chain ls (S j) _) as [s2 k2].
        simpl in *. subst k2.
        split; [exact H1|]. split; [reflexivity|].
        exists (c :: cs). simpl. rewrite H3, H4, <- !app_assoc.
        split; reflexivity.
      * split; [reflexivity|]. split; [reflexivity|].
        exists [c]. split; reflexivity.
    + split; [reflexivity|]. split; [reflexivity|].
      exists [c]. split; reflexivity.
Qed.

(** X3. Starting [runLoaders] at index [i] is running the loaders from
    index [i] on, on the same context: the final context and the
    completion are those of a run of [loaders.slice(i)] from index 0, and
    the calls made are the same, on the same contexts, with indices
    counted from [i]. The loaders before [i] are not called; past the end
    of the chain no loader is called at all. *)
Theorem runLoaders_from_index (loaders : list Loader) (i : nat)
    (st : PipelineState) :
  let r := runLoaders loaders i st in
  let r0 := runLoaders (drop i loaders) 0 (pipeline_start (context st)) in
  context r.1 = context r0.1
  ∧ r.2 = r0.2
  ∧ ∃ cs, invoked r.1 = invoked st ++ zip (seq i (length cs)) cs
          ∧ invoked r0.1 = zip (seq 0 (length cs)) cs
          ∧ length cs ≤ length loaders - i.
Proof.
  intros r r0. subst r r0. rewrite runLoaders_drop, runLoaders_from_start.
  destruct (run_chain_shift (drop i loaders) i 0 st
              (pipeline_start (context st)) eq_refl)
    as (H1 & H2 & cs & H3 & H4).
  split; [exact H1|]. split; [exact H2|].
  exists cs. split; [exact H3|]. split; [exact H4|].
  destruct (run_chain_frame_steps (drop i loaders) 0
              (pipeline_start (context st))) as (cs' & Hcs' & Hfr).
  rewrite H4 in Hcs'. simpl in Hcs'. subst cs'.
  apply (f_equal length) in Hfr.
  rewrite length_map, length_app, length_fmap, length_zip in Hfr.
  simpl in Hfr. rewrite length_seq, length_zip_with, length_fmap in Hfr.
  rewrite length_zip, length_seq, length_drop in Hfr. lia.
Qed.

Lemma run_chain_settle_now ls : ∀ i st,
  run_chain (settle_now <$> ls) i st = run_chain ls i st.
Proof.
  induction ls as [|l ls IH]; intros i st; simpl; [reflexivity|].
  destruct (exec l (context st) (options l)) as [c1 [[v|[v|e1]]|e1]]; simpl;
    try rewrite IH; reflexivity.
Qed.

(** X4. A promise that is fulfilled counts as the value it is fulfilled
    with: replacing, in every loader, a returned promise fulfilled with [v]
    by [v] itself changes nothing to the run, from any index. *)
Theorem runLoaders_settle_now (loaders : list Loader) (i : nat)
    (st : PipelineState) :
  runLoaders (settle_now <$> loaders) i st = runLoaders loaders i st.
Proof.
  rewrite !runLoaders_drop, <- fmap_drop. apply run_chain_settle_now.
Qed.

(** ** The per-file operation, end to end *)

(** X5. A file whose processing does not succeed leaves no trace: when
    [processFile] throws or its promise rejects (a missing file, a loader
    that throws, a promise that rejects), nothing has been written, no
    directory made and nothing reported, whatever the loaders had set in
    the context before the failure. *)
Theorem processFile_failure_untouched (path : NodePath) (project : Project)
    (srcPkg destPkg : PkgDesc) (prjSrcFile : string) (w : World) :
  (processFile path project srcPkg destPkg prjSrcFile w).2
    ≠ Promise (Fulfilled tt) →
  (processFile path project srcPkg destPkg prjSrcFile w).1 = w.
Proof.
  unfold processFile.
  destruct (length (loadersForFile project _) =? 0); [reflexivity|].
  destruct (files w !! _) as [data|]; [|reflexivity].
  destruct (runLoaders _ 0 _) as [st [e|[v|e]]]; try reflexivity.
  destruct (writeLoadersResult _ _ _ _ _ _) as [w1 c1]. simpl.
  intros H. contradiction H. reflexivity.
Qed.

Lemma processFile_failure_untouched_witness :
  processFile Sample.posix Failing.throwing_project Sample.rootPkg
    (clone Sample.rootPkg "build") "src/a/b.js" Sample.disk
    = (Sample.disk, Promise (Rejected (mkError "Loader 't' failed: stop")))
  ∧ processFile Sample.posix Failing.rejecting_project Sample.rootPkg
      (clone Sample.rootPkg "build") "src/a/b.js" Sample.disk
    = (Sample.disk, Promise (Rejected (mkError "boom")))
  ∧ processFile Sample.posix Failing.throwing_project Sample.rootPkg
      (clone Sample.rootPkg "build") "src/missing.js" Sample.disk
    = (Sample.disk,
       SyncThrow (enoent "/prj/src/missing.js")).
Proof.
  pose proof (processFile_failure_untouched Sample.posix
                Failing.throwing_project Sample.rootPkg
                (clone Sample.rootPkg "build") "src/a/b.js" Sample.disk) as H1.
  pose proof (processFile_failure_untouched Sample.posix
                Failing.rejecting_project Sample.rootPkg
                (clone Sample.rootPkg "build") "src/a/b.js" Sample.disk) as H2.
  pose proof (processFile_failure_untouched Sample.posix
                Failing.throwing_project Sample.rootPkg
                (clone Sample.rootPkg "build") "src/missing.js" Sample.disk)
    as H3.
  split; [|split]; apply injective_projections.
  - apply H1. vm_compute. discriminate.
  - reflexivity.
  - apply H2. vm_compute. discriminate.
  - reflexivity.
  - apply H3. vm_compute. discriminate.
  - reflexivity.
Defined.

(** X6. A file with a non-empty chain, that exists, and whose loaders all
    return, is processed to the end: the promise is fulfilled, and the
    journal grows by the writes of the result of the pipeline (the primary
    file when the final content is defined, then the extra artifacts with
    defined content) followed by one report for the file, which carries
    the log the loaders left and the diagnostics of the extra artifacts.
    The pipeline starts from the text of the file, its project-relative
    path, no extra artifact and an empty log. *)
Theorem processFile_success (path : NodePath) (project : Project)
    (srcPkg destPkg : PkgDesc) (prjSrcFile data : string) (w : World) :
  let absFile := path_join path [project_dir project; prjSrcFile] in
  let loaders := loadersForFile project absFile in
  let final :=
    fold_left apply_loader loaders (mkContext (VStr data) prjSrcFile [] []) in
  loaders ≠ [] →
  files w !! absFile = Some data →
  all_return loaders (mkContext (VStr data) prjSrcFile [] []) = true →
  (processFile path project srcPkg destPkg prjSrcFile w).2
    = Promise (Fulfilled tt)
  ∧ journal (processFile path project srcPkg destPkg prjSrcFile w).1
    = journal w ++ result_events path project srcPkg destPkg final
      ++ [RulesRun prjSrcFile
            (log final ++ flat_map extra_diagnostics (extraArtifacts final))].
Proof.
  intros absFile loaders final Hne Hfile Hall.
  unfold processFile. fold absFile. fold loaders.
  destruct (length loaders =? 0) eqn:Hlen.
  { apply Nat.eqb_eq in Hlen. destruct loaders; [contradiction | discriminate]. }
  rewrite Hfile.
  rewrite (runLoaders_all_return loaders _ Hall). fold final. cbn [context].
  destruct (writeLoadersResult_journal path project srcPkg destPkg final w)
    as [Hj Hl].
  destruct (writeLoadersResult path project srcPkg destPkg final w) as [w1 c1].
  simpl in *. split; [reflexivity|].
  rewrite Hj, Hl. unfold result_events. rewrite <- !app_assoc. reflexivity.
Qed.

Lemma processFile_success_witness :
  let r := processFile Sample.posix Sample.project Sample.rootPkg
             (clone Sample.rootPkg "build") "src/a/b.js" Sample.disk in
  r.2 = Promise (Fulfilled tt)
  ∧ journal r.1 =
      [EnsureDir "/prj/build/a"; WriteFile "/prj/build/a/b.js" "let x!";
       EnsureDir "/prj/build/a"; WriteFile "/prj/build/a/b.map" "{}";
       RulesRun "src/a/b.js"
         [mkLogEntry LInfo "liferay-npm-bundler"
            "Rules generated extra artifact: src/a/b.map"]].
Proof.
  intros r.
  destruct (processFile_success Sample.posix Sample.project Sample.rootPkg
              (clone Sample.rootPkg "build") "src/a/b.js" "let x" Sample.disk)
    as [Hres Hj].
  - vm_compute. discriminate.
  - reflexivity.
  - reflexivity.
  - split; [exact Hres|]. subst r. rewrite Hj. reflexivity.
Defined.

(** ** The files after the result is written *)

Lemma replay_app evs1 evs2 m :
  replay (evs1 ++ evs2) m = replay evs2 (replay evs1 m).
Proof. apply fold_left_app. Qed.

Lemma last_written_snoc f evs e :
  last_written f (evs ++ [e]) =
    match e with
    | WriteFile p data => if decide (p = f) then Some data else last_written f evs
    | _ => last_written f evs
    end.
Proof.
  unfold last_written.
  etransitivity; [apply (f_equal last), omap_app|]. simpl.
  destruct e as [d|p data|msg|p l]; simpl; rewrite ?app_nil_r; try reflexivity.
  destruct (decide (p = f)); simpl; [apply last_snoc | by rewrite app_nil_r].
Qed.

(** The file system after a run of effects holds, at each path, the text
    last written there, and what it held before at a path not written. *)
Lemma replay_lookup evs m f :
  replay evs m !! f =
    match last_written f evs with
    | Some data => Some data
    | None => m !! f
    end.
Proof.
  induction evs as [|e evs IH] using rev_ind; [reflexivity|].
  rewrite replay_app, last_written_snoc. simpl.
  destruct e as [d|p data|msg|p l]; try exact IH.
  destruct (decide (p = f)) as [->|Hne].
  - apply lookup_insert_eq.
  - rewrite lookup_insert_ne by exact Hne. exact IH.
Qed.

Lemma writeRuleFile_replay path project destPkg pkgFile data w :
  files (writeRuleFile path project destPkg pkgFile data w)
    = replay (write_events path project destPkg pkgFile data) (files w).
Proof. reflexivity. Qed.

Lemma fold_write_extra_files path project srcPkg destPkg entries : ∀ w lg,
  files (fold_left (write_extra path project srcPkg destPkg) entries (w, lg)).1
    = replay (flat_map (extra_writes path project srcPkg destPkg) entries)
        (files w).
Proof.
  induction entries as [|[f v] entries IH]; intros w lg; [reflexivity|].
  cbn [fold_left flat_map].
  change (write_extra path project srcPkg destPkg (w, lg) (f, v)) with
    (match defined_content v with
     | None => (w, lg)
     | Some data =>
       (writeRuleFile path project destPkg
          (pkg_relative path project srcPkg f) data w,
        log_info bundler_tag ("Rules generated extra artifact: " +:+ f) lg)
     end).
  assert (Hx : extra_writes path project srcPkg destPkg (f, v) =
               match defined_content v with
               | Some data =>
                 write_events path project destPkg
                   (pkg_relative path project srcPkg f) data
               | None => []
               end) by reflexivity.
  rewrite replay_app, Hx.
  destruct (defined_content v) as [data|].
  - rewrite IH, writeRuleFile_replay. reflexivity.
  - apply IH.
Qed.

(** X7. After [writeLoadersResult], a path of the file system holds the
    text of the last write made there, in the order primary file first and
    then the extra artifacts in the order of the entries (so that, when
    two of them are placed at the same destination, the later one is what
    stays), and a path at which nothing is written holds what it held
    before. *)
Theorem writeLoadersResult_files (path : NodePath) (project : Project)
    (srcPkg destPkg : PkgDesc) (c : FileContext) (w : World) (f : string) :
  files (writeLoadersResult path project srcPkg destPkg c w).1 !! f =
    match last_written f (result_events path project srcPkg destPkg c) with
    | Some data => Some data
    | None => files w !! f
    end.
Proof.
  rewrite <- replay_lookup. f_equal.
  unfold writeLoadersResult, result_events.
  pose proof (fold_write_extra_files path project srcPkg destPkg
                (extraArtifacts c)) as H.
  rewrite replay_app.
  destruct (defined_content (content c)) as [data|];
    match goal with
    | |- context [fold_left _ _ (?w0, ?lg0)] =>
      specialize (H w0 lg0); destruct (fold_left _ _ (w0, lg0)) as [w2 lg]
    end; simpl in *; rewrite H; reflexivity.
Qed.

(** A root package whose primary file [src/x.txt] and extra artifact
    [x.txt] are placed at the same destination: the extra artifact stays;
    another file of the disk is as it was. *)
Example writeLoadersResult_same_destination :
  let c := mkContext (VStr "primary") "src/x.txt" [("x.txt", VStr "extra")] [] in
  let w' := (writeLoadersResult Sample.posix Sample.project Sample.rootPkg
               (clone Sample.rootPkg "build") c Sample.disk).1 in
  files w' !! "/prj/build/x.txt" = Some "extra"
  ∧ files w' !! "/prj/src/a/b.js" = Some "let x".
Proof. split; vm_compute; reflexivity. Qed.

(** ** The orchestrator on clean packages *)

(** X8. When the root package and every dependency are clean, [runRules]
    processes nothing: no package is logged or run, whatever the bound on
    the files in flight, and the promise is fulfilled after the one line
    "Applied rules to 0 packages". *)
Theorem runRules_all_clean (path : NodePath) (project : Project)
    (completion_order :
       list (string * option JsError) → list (string * option JsError))
    (rootPkg : PkgDesc) (depPkgs : list PkgDesc) (w : World) :
  clean rootPkg = true →
  Forall (λ p, clean p = true) depPkgs →
  runRules path project completion_order rootPkg depPkgs w
    = Some (emit (LogDebug "Applied rules to 0 packages") w, [],
            Promise (Fulfilled tt)).
Proof.
  intros Hroot Hdeps. unfold runRules.
  assert (Hd : dirty rootPkg depPkgs = []).
  { unfold dirty. simpl. rewrite Hroot. simpl.
    induction Hdeps as [|p ps Hp _ IH]; simpl; [reflexivity|].
    rewrite Hp. simpl. exact IH. }
  rewrite Hd. reflexivity.
Qed.

Lemma runRules_all_clean_witness :
  runRules Sample.posix Sample.project Sample.in_order Sample.cleanPkg
    [Sample.cleanPkg] Sample.disk
    = Some (emit (LogDebug "Applied rules to 0 packages") Sample.disk, [],
            Promise (Fulfilled tt)).
Proof.
  apply runRules_all_clean; [reflexivity | repeat constructor].
Defined.

(** * [JsonModifier] and [Project] of the JS toolkit *)

Lemma string_append_cons (c : ascii) (a b : string) :
  String c a +:+ b = String c (a +:+ b).
Proof. reflexivity. Qed.

Import Toolkit.

Lemma escapeProp_no_leading_dot name rest :
  _escapeProp name ≠ String "." rest.
Proof.
  destruct name as [|c name]; simpl; [discriminate|].
  destruct (Ascii.eqb_spec c "."); [discriminate|]. congruence.
Qed.

(** X9. [_escapeProp] loses nothing: two names have the same escaped form
    only when they are the same name. *)
Theorem escapeProp_inj (name1 name2 : string) :
  _escapeProp name1 = _escapeProp name2 ↔ name1 = name2.
Proof.
  split; [|intros ->; reflexivity].
  revert name2. induction name1 as [|c a IH]; intros [|d b]; simpl.
  - reflexivity.
  - destruct (Ascii.eqb d "."); discriminate.
  - destruct (Ascii.eqb c "."); discriminate.
  - destruct (Ascii.eqb_spec c ".") as [->|Hc];
      destruct (Ascii.eqb_spec d ".") as [->|Hd]; intros H; inversion H.
    + f_equal. apply IH. assumption.
    + exfalso. eapply escapeProp_no_leading_dot. symmetry. eassumption.
    + exfalso. eapply escapeProp_no_leading_dot. eassumption.
    + f_equal. apply IH. assumption.
Qed.

Lemma escapeProp_bare_dot name : ∀ escaped,
  bare_dot escaped (_escapeProp name) = false.
Proof.
  induction name as [|c name IH]; intros escaped; simpl; [reflexivity|].
  destruct (Ascii.eqb_spec c ".") as [->|Hc]; simpl.
  - rewrite IH. reflexivity.
  - rewrite IH. destruct (Ascii.eqb_spec c "."); [contradiction|]. reflexivity.
Qed.

(** X10. In the escaped form of a name every dot comes right after a
    backslash; the escaped form is longer than the name by the number of
    dots of the name, and it is the name itself exactly when the name has
    no dot. *)
Theorem escapeProp_dots (name : string) :
  bare_dot false (_escapeProp name) = false
  ∧ String.length (_escapeProp name) = String.length name + dots name
  ∧ (_escapeProp name = name ↔ dots name = 0).
Proof.
  split; [apply escapeProp_bare_dot|].
  assert (Hlen : String.length (_escapeProp name)
                 = String.length name + dots name).
  { induction name as [|c name IH]; simpl; [reflexivity|].
    destruct (Ascii.eqb c "."); simpl; rewrite IH; lia. }
  split; [exact Hlen|]. split.
  - intros Heq. rewrite Heq in Hlen. lia.
  - induction name as [|c name IH]; simpl; [reflexivity|].
    destruct (Ascii.eqb c "."); simpl; [discriminate|].
    intros H0. f_equal. apply IH; [|exact H0].
    simpl in Hlen. destruct (Ascii.eqb c "."); simpl in Hlen; lia.
Qed.

(** X11. Escaping goes through concatenation: the escaped form of a path
    of names put together is the escaped forms put together. *)
Theorem escapeProp_app (name1 name2 : string) :
  _escapeProp (name1 +:+ name2) = _escapeProp name1 +:+ _escapeProp name2.
Proof.
  induction name1 as [|c a IH]; [reflexivity|].
  rewrite string_append_cons. simpl.
  destruct (Ascii.eqb c "."); rewrite !string_append_cons, IH; reflexivity.
Qed.




Lemma startsWith_main_export (main : string) :
  startsWith (main_export main) "." = true.
Proof.
  unfold main_export. destruct (startsWith main "/").
  - apply (startsWith_prefix "." main).
  - destruct (startsWith main ".") eqn:H; simpl; [exact H|].
    apply (startsWith_prefix "." ("/" +:+ main)).
Qed.

Lemma truthy_startsWith_dot (s : string) :
  startsWith s "." = true → truthy (Some s) = true.
Proof. destruct s; [discriminate | reflexivity]. Qed.

(** X13. The getter [exports] touches the entry [main] only, and only when
    the configured exports have no [main] (or an empty one): a configured
    [main] is kept as it is, and so is every other entry. There is a
    [main] export exactly when one is configured, or [package.json] has a
    [main], or [index.js] exists in the source directory. A [main] export
    the getter adds starts with a dot, and it is made from the [main] of
    [package.json] whenever there is one. *)
Theorem exports_main (configured : option (gmap string string))
    (pkgJson_main : option string) (index_exists : bool) :
  let given := default ∅ configured in
  let _exports := exports configured pkgJson_main index_exists in
  (∀ k, k ≠ "main" → _exports !! k = given !! k)
  ∧ (truthy (given !! "main") = true → _exports = given)
  ∧ truthy (_exports !! "main")
    = truthy (given !! "main") || truthy pkgJson_main || index_exists
  ∧ (truthy (given !! "main") = false →
     truthy (_exports !! "main") = true →
     ∃ main, _exports !! "main" = Some main ∧ startsWith main "." = true
             ∧ (truthy pkgJson_main = true →
                ∃ m, pkgJson_main = Some m ∧ main = main_export m)).
Proof.
  intros given _exports. subst _exports. unfold exports. fold given.
  destruct (truthy (given !! "main")) eqn:Hgiven; cbn [negb orb].
  { rewrite Hgiven. split; [reflexivity|]. split; [reflexivity|].
    split; [reflexivity|]. discriminate. }
  assert (Hother : ∀ v k, k ≠ "main" → <["main" := v]> given !! k = given !! k).
  { intros v k Hk. apply lookup_insert_ne. congruence. }
  assert (Hmain : ∀ m, truthy (Some (main_export m)) = true).
  { intros m. apply truthy_startsWith_dot, startsWith_main_export. }
  destruct pkgJson_main as [m|]; [destruct (truthy (Some m)) eqn:Hm|];
    try destruct index_exists; cbn [orb];
    rewrite ?lookup_insert_eq, ?Hgiven, ?Hmain;
    (split; [auto|]); (split; [discriminate|]); (split; [reflexivity|]);
    intros _ Htrue; try discriminate.
  - exists (main_export m). split; [reflexivity|].
    split; [apply startsWith_main_export|]. intros _. by exists m.
  - exists (main_export m). split; [reflexivity|].
    split; [apply startsWith_main_export|]. intros _. by exists m.
  - exists "./index.js". split; [reflexivity|]. split; [reflexivity|].
    discriminate.
  - exists "./index.js". split; [reflexivity|]. split; [reflexivity|].
    discriminate.
Qed.

(** The getter [imports] sets one key after the other, in the order of
    [listed_imports]. *)
Lemma imports_listed (configured : list (string * list (string * string))) :
  ∀ acc : gmap string ImportsConfig,
    fold_left
      (λ _imports '(provider, config),
         fold_left
           (λ _imports '(pkgName, version),
              <[imported_name provider pkgName := mkImportsConfig provider version]>
                _imports)
           config _imports)
      configured acc
    = fold_left (λ m kv, <[kv.1 := kv.2]> m) (listed_imports configured) acc.
Proof.
  induction configured as [|[p config] rest IH]; intros acc; [reflexivity|].
  cbn [fold_left listed_imports flat_map]. rewrite fold_left_app, IH. f_equal.
  clear IH. revert acc.
  induction config as [|[k v] config IHc]; intros acc; [reflexivity|].
  simpl. apply IHc.
Qed.

Lemma fold_insert_not_in {V} (l : list (string * V)) : ∀ (m : gmap string V) k,
  k ∉ l.*1 →
  fold_left (λ m kv, <[kv.1 := kv.2]> m) l m !! k = m !! k.
Proof.
  induction l as [|[k' v] l IH]; intros m k Hk; [reflexivity|].
  simpl in *. apply not_elem_of_cons in Hk as [Hne Hk].
  rewrite IH by exact Hk. apply lookup_insert_ne. congruence.
Qed.

Lemma fold_insert_Some {V} (l : list (string * V)) : ∀ (m : gmap string V) k v,
  fold_left (λ m kv, <[kv.1 := kv.2]> m) l m !! k = Some v →
  (k, v) ∈ l ∨ m !! k = Some v.
Proof.
  induction l as [|[k' v'] l IH]; intros m k v H; [right; exact H|].
  simpl in H. apply IH in H as [H|H].
  - left. right. exact H.
  - destruct (decide (k' = k)) as [->|Hne].
    + rewrite lookup_insert_eq in H. inversion H. left. left.
    + rewrite lookup_insert_ne in H by exact Hne. right. exact H.
Qed.

(** X14. When the same package is named more than once in the configured
    imports (under two providers, or by its name and by [/] under its own
    provider), the entry the getter [imports] meets last is the one that
    stays. *)
Theorem imports_last_wins (configured : list (string * list (string * string)))
    (pre post : list (string * ImportsConfig)) (name : string)
    (ic : ImportsConfig) :
  listed_imports configured = pre ++ (name, ic) :: post →
  name ∉ post.*1 →
  imports (Some configured) !! name = Some ic.
Proof.
  intros Hlisted Hpost. unfold imports. simpl.
  rewrite imports_listed, Hlisted, fold_left_app. simpl.
  rewrite fold_insert_not_in by exact Hpost. apply lookup_insert_eq.
Qed.

Lemma imports_last_wins_witness :
  imports (Some [("provider-a", [("/", "^1.0.0"); ("lodash", "^4.0.0")]);
                 ("provider-b", [("lodash", "^3.0.0")])]) !! "lodash"
    = Some (mkImportsConfig "provider-b" "^3.0.0")
  ∧ imports (Some [("provider-a", [("/", "^1.0.0"); ("lodash", "^4.0.0")]);
                   ("provider-b", [("lodash", "^3.0.0")])]) !! "provider-a"
    = Some (mkImportsConfig "provider-a" "^1.0.0").
Proof.
  split.
  - apply (imports_last_wins _
             [("provider-a", mkImportsConfig "provider-a" "^1.0.0");
              ("lodash", mkImportsConfig "provider-a" "^4.0.0")] []);
      [reflexivity | apply not_elem_of_nil].
  - apply (imports_last_wins _ []
             [("lodash", mkImportsConfig "provider-a" "^4.0.0");
              ("lodash", mkImportsConfig "provider-b" "^3.0.0")]);
      [reflexivity|].
    simpl. intros H. repeat (apply elem_of_cons in H as [H|H]; [discriminate|]).
    by apply elem_of_nil in H.
Defined.

Lemma elem_of_listed_imports configured name ic :
  (name, ic) ∈ listed_imports configured
  ↔ ∃ config pkgName,
      (provider ic, config) ∈ configured
      ∧ (pkgName, version ic) ∈ config
      ∧ name = imported_name (provider ic) pkgName.
Proof.
  unfold listed_imports. rewrite list_elem_of_In, in_flat_map. split.
  - intros ([p config] & Hin & Hm). apply in_map_iff in Hm as ([k v] & Heq & Hk).
    inversion Heq; subst. exists config, k. simpl.
    rewrite !list_elem_of_In. auto.
  - intros (config & k & Hin & Hk & ->). exists (provider ic, config).
    rewrite <- list_elem_of_In. split; [exact Hin|].
    apply in_map_iff. exists (k, version ic). rewrite <- list_elem_of_In.
    split; [|exact Hk]. destruct ic; reflexivity.
Qed.

(** X15. Every import the getter [imports] records comes from the
    configuration: a package has an import with a given provider and
    version only if the object configured under that provider has an
    entry with that version, under the name of the package or, for the
    provider's own name, under [/]. A package has no import exactly when
    no entry of the configuration stands for it; without configured
    imports there is none at all. *)
Theorem imports_from_configuration
    (configured : list (string * list (string * string))) (name : string) :
  (∀ ic, imports (Some configured) !! name = Some ic →
         ∃ config pkgName,
           (provider ic, config) ∈ configured
           ∧ (pkgName, version ic) ∈ config
           ∧ name = imported_name (provider ic) pkgName)
  ∧ (imports (Some configured) !! name = None
     ↔ name ∉ (listed_imports configured).*1)
  ∧ imports None = ∅.
Proof.
  unfold imports. simpl. rewrite imports_listed. split; [|split].
  - intros ic H. apply fold_insert_Some in H as [H|H].
    + apply elem_of_listed_imports. exact H.
    + rewrite lookup_empty in H. discriminate.
  - split.
    + intros Hnone Hin. apply list_elem_of_fmap in Hin as ([k ic] & -> & Hin).
      apply list_elem_of_split in Hin as (l1 & l2 & Hsplit).
      assert (Hlast : ∃ pre ic' post,
                 listed_imports configured = pre ++ (k, ic') :: post
                 ∧ k ∉ post.*1).
      { rewrite Hsplit. clear Hsplit Hnone. revert l1 ic.
        induction l2 as [|[k' ic'] l2 IH] using rev_ind; intros l1 ic.
        - exists l1, ic, []. split; [reflexivity | apply not_elem_of_nil].
        - destruct (decide (k' = k)) as [->|Hne].
          + exists (l1 ++ (k, ic) :: l2), ic', [].
            rewrite <- app_assoc. split; [reflexivity | apply not_elem_of_nil].
          + destruct (IH l1 ic) as (pre & ic0 & post & Heq & Hnot).
            exists pre, ic0, (post ++ [(k', ic')]). split.
            * rewrite app_comm_cons, app_assoc, Heq, <- app_assoc.
              reflexivity.
            * rewrite fmap_app. simpl. intros Hin.
              apply elem_of_app in Hin as [Hin|Hin]; [contradiction|].
              apply list_elem_of_singleton in Hin. congruence. }
      destruct Hlast as (pre & ic' & post & Heq & Hnot).
      simpl in Hnone. rewrite Heq, fold_left_app in Hnone. simpl in Hnone.
      rewrite fold_insert_not_in, lookup_insert_eq in Hnone by exact Hnot.
      discriminate.
    + intros Hnot. rewrite fold_insert_not_in by exact Hnot.
      apply lookup_empty.
  - reflexivity.
Qed.

(** X16. What the getter [pkgManager] finds, on an empty cache. A lock
    file decides when it is the only one of the two: [yarn.lock] gives
    yarn, [package-lock.json] gives npm. With both lock files, or none,
    the commands decide in the same way: the only one of the two that can
    be spawned. The result is [null] exactly when the lock files do not
    differ and the commands do not differ either. *)
Theorem pkgManager_decision (m : Machine) :
  let found := (pkgManager m None).2 in
  (found = Some yarn
   ↔ (yarn_lock m = true ∧ package_lock m = false)
     ∨ (yarn_lock m = package_lock m
        ∧ yarn_runs m = true ∧ npm_runs m = false))
  ∧ (found = Some npm
     ↔ (package_lock m = true ∧ yarn_lock m = false)
       ∨ (yarn_lock m = package_lock m
          ∧ npm_runs m = true ∧ yarn_runs m = false))
  ∧ (found = None
     ↔ yarn_lock m = package_lock m ∧ yarn_runs m = npm_runs m).
Proof.
  destruct m as [[] [] [] []]; vm_compute;
    repeat split; intros; try discriminate; try tauto;
    repeat match goal with
           | H : _ ∨ _ |- _ => destruct H
           | H : _ ∧ _ |- _ => destruct H
           end; try discriminate; auto.
Qed.

(** X17. The getter [pkgManager] spawns a command only when the lock files
    do not decide, and then it tries both commands, yarn first. What it
    finds is stored, [null] included: a later read gives the same answer
    and spawns nothing, whatever the machine has become. *)
Theorem pkgManager_cached (m m' : Machine)
    (_pkgManager : option (option PkgManager)) :
  let first := pkgManager m _pkgManager in
  let second := pkgManager m' first.1.1 in
  second.2 = first.2
  ∧ second.1.2 = []
  ∧ second.1.1 = first.1.1
  ∧ first.1.1 = Some first.2
  ∧ (first.1.2 = [] ∨ first.1.2 = ["yarn"; "npm"])
  ∧ (first.1.2 = []
     ↔ is_Some _pkgManager ∨ yarn_lock m ≠ package_lock m).
Proof.
  destruct _pkgManager as [v|]; simpl.
  - repeat split; eauto.
  - destruct m as [[] [] yr nr]; cbn;
      (split; [reflexivity|]); (split; [reflexivity|]);
      (split; [reflexivity|]); (split; [reflexivity|]);
      (split; [auto|]); split;
      first [ reflexivity
            | discriminate
            | intros _; right; discriminate
            | intros [[x Hx]|Hne]; [discriminate | contradiction] ].
Qed.
